(** * Constraint filtration and group closure over F3

    A shallow embedding of the Python test-suite of the repository
    (tests/test_filtration_cascade.py, tests/test_group_structures.py,
    tests/test_minimal_generation.py, tests/test_generation_property.py).

    Conventions of the embedding.
    - A numpy 3x3 integer array is a record of nine [Z] entries (row major).
      All arrays of the development hold small integers, so the int64
      arithmetic of numpy never wraps and is written with plain [Z].
    - A Python [%] with a positive right operand is [Z.modulo].
    - [np.linalg.det] is taken at its exact real value, which for an integer
      matrix is the integer given by the cofactor expansion; [np.round] and
      [int] are then the identity.
    - A Python [set] of tuples is a duplicate-free list kept in insertion
      order; the order in which [list(group)] walks the set is a parameter
      [set_order] of the closure engine, constrained only to be a
      rearrangement of the elements. *)

From Stdlib Require Import ZArith List Bool Lia Permutation Ascii String Zdiv
  QArith.
Import ListNotations.
Open Scope string_scope.
Open Scope list_scope.
Open Scope Z_scope.

(** ** Arrays, tuples and field arithmetic *)

Record Matrix3 : Type := mk3 {
  m00 : Z; m01 : Z; m02 : Z;
  m10 : Z; m11 : Z; m12 : Z;
  m20 : Z; m21 : Z; m22 : Z }.

Definition Vec3 : Type := (Z * Z * Z)%type.

(** The hashable key [tuple(M.flatten())]. *)
Definition Tuple9 : Type := (Z * Z * Z * Z * Z * Z * Z * Z * Z)%type.

Definition matrix_to_tuple (M : Matrix3) : Tuple9 :=
  (m00 M, m01 M, m02 M, m10 M, m11 M, m12 M, m20 M, m21 M, m22 M).

(** [np.array(t).reshape(3, 3)] on a 9-tuple. *)
Definition tuple_to_matrix (t : Tuple9) : Matrix3 :=
  let '(a, b, c, d, e, f, g, h, i) := t in mk3 a b c d e f g h i.

(** [np.array(entries).reshape(3, 3)] on a sequence: defined on length 9. *)
Definition reshape33 (entries : list Z) : option Matrix3 :=
  match entries with
  | [a; b; c; d; e; f; g; h; i] => Some (mk3 a b c d e f g h i)
  | _ => None
  end.

Definition tuple_eqb (s t : Tuple9) : bool :=
  let '(a, b, c, d, e, f, g, h, i) := s in
  let '(a', b', c', d', e', f', g', h', i') := t in
  (a =? a') && (b =? b') && (c =? c') && (d =? d') && (e =? e') &&
  (f =? f') && (g =? g') && (h =? h') && (i =? i').

(** [np.array_equal(A, B)]. *)
Definition array_equal (A B : Matrix3) : bool :=
  tuple_eqb (matrix_to_tuple A) (matrix_to_tuple B).

(** [np.eye(3, dtype=int)]. *)
Definition identity : Matrix3 := mk3 1 0 0 0 1 0 0 0 1.

(** [M % 3], entry by entry. *)
Definition mod3 (M : Matrix3) : Matrix3 :=
  mk3 (m00 M mod 3) (m01 M mod 3) (m02 M mod 3)
      (m10 M mod 3) (m11 M mod 3) (m12 M mod 3)
      (m20 M mod 3) (m21 M mod 3) (m22 M mod 3).

(** [A @ B]. *)
Definition matmul (A B : Matrix3) : Matrix3 :=
  mk3 (m00 A * m00 B + m01 A * m10 B + m02 A * m20 B)
      (m00 A * m01 B + m01 A * m11 B + m02 A * m21 B)
      (m00 A * m02 B + m01 A * m12 B + m02 A * m22 B)
      (m10 A * m00 B + m11 A * m10 B + m12 A * m20 B)
      (m10 A * m01 B + m11 A * m11 B + m12 A * m21 B)
      (m10 A * m02 B + m11 A * m12 B + m12 A * m22 B)
      (m20 A * m00 B + m21 A * m10 B + m22 A * m20 B)
      (m20 A * m01 B + m21 A * m11 B + m22 A * m21 B)
      (m20 A * m02 B + m21 A * m12 B + m22 A * m22 B).

(** [matrix_mult_mod3] / [matrix_multiply_mod3]: [(A @ B) % 3]. *)
Definition matrix_mult_mod3 (A B : Matrix3) : Matrix3 := mod3 (matmul A B).

(** [M @ v] for a length-3 vector. *)
Definition matvec (M : Matrix3) (v : Vec3) : Vec3 :=
  let '(x, y, z) := v in
  (m00 M * x + m01 M * y + m02 M * z,
   m10 M * x + m11 M * y + m12 M * z,
   m20 M * x + m21 M * y + m22 M * z).

Definition vec_mod3 (v : Vec3) : Vec3 :=
  let '(x, y, z) := v in (x mod 3, y mod 3, z mod 3).

Definition vec_sum (v : Vec3) : Z := let '(x, y, z) := v in x + y + z.

Definition vec_scale (a : Z) (v : Vec3) : Vec3 :=
  let '(x, y, z) := v in (a * x, a * y, a * z).

Definition vec_add (u v : Vec3) : Vec3 :=
  let '(x, y, z) := u in let '(x', y', z') := v in (x + x', y + y', z + z').

(** Exact value of [np.linalg.det(M)] on an integer matrix. *)
Definition det (M : Matrix3) : Z :=
  m00 M * (m11 M * m22 M - m12 M * m21 M)
  - m01 M * (m10 M * m22 M - m12 M * m20 M)
  + m02 M * (m10 M * m21 M - m11 M * m20 M).

(** [int(np.round(np.linalg.det(M))) % 3]. *)
Definition det_mod3 (M : Matrix3) : Z := det M mod 3.

(** [int(M[0,0] + M[1,1] + M[2,2]) % 3]. *)
Definition trace_mod3 (M : Matrix3) : Z := (m00 M + m11 M + m22 M) mod 3.

Definition row_sums (M : Matrix3) : list Z :=
  [m00 M + m01 M + m02 M; m10 M + m11 M + m12 M; m20 M + m21 M + m22 M].

Definition col_sums (M : Matrix3) : list Z :=
  [m00 M + m10 M + m20 M; m01 M + m11 M + m21 M; m02 M + m12 M + m22 M].

(** The Matrix3 invariant of the data model: entries in {0,1,2}. *)
Definition entries (M : Matrix3) : list Z :=
  [m00 M; m01 M; m02 M; m10 M; m11 M; m12 M; m20 M; m21 M; m22 M].

Definition is_field_element (x : Z) : bool := (0 <=? x) && (x <? 3).

Definition over_F3 (M : Matrix3) : bool := forallb is_field_element (entries M).

(** ** Enumeration and the constraint predicates *)

(** [itertools.product(xs, repeat=n)], in its lexicographic order. *)
Fixpoint product_repeat (xs : list Z) (n : nat) : list (list Z) :=
  match n with
  | O => [[]]
  | S n' => flat_map (fun x => map (cons x) (product_repeat xs n')) xs
  end.

Definition raw_matrices : list Matrix3 :=
  flat_map (fun e => match reshape33 e with Some M => [M] | None => [] end)
           (product_repeat [0; 1; 2] 9).

(** [generate_gl3_f3]. *)
Definition generate_gl3_f3 : list Matrix3 :=
  filter (fun M => negb (det_mod3 M =? 0)) raw_matrices.

(** [check_conservation]: row sums = 1 (mod 3). *)
Definition check_conservation (M : Matrix3) : bool :=
  forallb (fun s => s mod 3 =? 1) (row_sums M).

(** [check_row_and_col]: row and column sums = 1 (mod 3). *)
Definition check_row_and_col (M : Matrix3) : bool :=
  forallb (fun s => s mod 3 =? 1) (row_sums M) &&
  forallb (fun s => s mod 3 =? 1) (col_sums M).

Definition H_basis : list Vec3 := [(1, 2, 0); (0, 1, 2)].

(** The test [sum((M @ v) % 3) % 3 != 0] of [check_normalizes_h], negated. *)
Definition keeps_in_H (M : Matrix3) (v : Vec3) : bool :=
  vec_sum (vec_mod3 (matvec M v)) mod 3 =? 0.

(** [check_normalizes_h]: the two basis vectors, then every combination
    [a*b1 + b*b2] with [(a, b) <> (0, 0)]. *)
Definition check_normalizes_h (M : Matrix3) : bool :=
  forallb (keeps_in_H M) H_basis &&
  forallb (fun a =>
    forallb (fun b =>
      if (a =? 0) && (b =? 0) then true
      else keeps_in_H M
             (vec_mod3 (vec_add (vec_scale a (nth 0 H_basis (0, 0, 0)))
                                (vec_scale b (nth 1 H_basis (0, 0, 0))))))
      [0; 1; 2])
    [0; 1; 2].

(** The reduced check the specification allows: the basis vectors only. *)
Definition check_normalizes_h_basis_only (M : Matrix3) : bool :=
  forallb (keeps_in_H M) H_basis.

Definition ops_432 : list Matrix3 := filter check_conservation generate_gl3_f3.

Definition ops_54 : list Matrix3 := filter check_row_and_col generate_gl3_f3.

Definition ops_108 : list Matrix3 :=
  filter (fun M => check_conservation M && check_normalizes_h M) generate_gl3_f3.

(** Membership of a key in a set of keys. *)
Definition tuple_mem (t : Tuple9) (s : list Tuple9) : bool :=
  existsb (tuple_eqb t) s.

Definition set_54 : list Tuple9 := map matrix_to_tuple ops_54.

(** ** Element orders *)

(** The loop of [compute_order]: [for n in range(1, 21)]. *)
Fixpoint order_loop (M current : Matrix3) (n : Z) (steps : nat) : option Z :=
  match steps with
  | O => None
  | S steps' =>
      if array_equal (mod3 current) identity then Some n
      else order_loop M (matrix_mult_mod3 current M) (n + 1) steps'
  end.

(** [compute_order] of test_54_element_orders; [None] is the sentinel. *)
Definition compute_order (M : Matrix3) : option Z := order_loop M M 1 20.

(** [compute_matrix_order] of the investigator; [-1] is the sentinel. *)
Definition compute_matrix_order (M : Matrix3) (max_order : Z) : Z :=
  match order_loop M M 1 (Z.to_nat max_order) with
  | Some n => n
  | None => -1
  end.

(** [M] multiplied [n] times, reduced mod 3. *)
Fixpoint mat_pow (M : Matrix3) (n : nat) : Matrix3 :=
  match n with
  | O => identity
  | S n' => matrix_mult_mod3 (mat_pow M n') M
  end.

(** Python's [len]. *)
Definition len {A : Type} (l : list A) : Z := Z.of_nat (List.length l).

(** ** The closure engine *)

(** [s.add(t)] on a set kept in insertion order. *)
Definition set_add (t : Tuple9) (s : list Tuple9) : list Tuple9 :=
  if tuple_mem t s then s else s ++ [t].

(** The three variables of the breadth-first loop. *)
Record Closure : Type := mkClosure {
  group : list Tuple9;
  to_process : list Matrix3;
  processed : list Tuple9 }.

(** [for prod in [prod1, prod2]] of [generate_group]: a new product is added
    to the group; when the group has reached [max_size] the [break] leaves
    this two-element loop, otherwise the product is queued. *)
Fixpoint insert_products (max_size : Z) (prods : list Matrix3)
    (grp : list Tuple9) (queue : list Matrix3) : list Tuple9 * list Matrix3 :=
  match prods with
  | [] => (grp, queue)
  | prod :: rest =>
      let prod_tuple := matrix_to_tuple prod in
      if tuple_mem prod_tuple grp then insert_products max_size rest grp queue
      else
        let grp' := grp ++ [prod_tuple] in
        if len grp' >=? max_size then (grp', queue)
        else insert_products max_size rest grp' (queue ++ [prod])
  end.

(** The same loop in [generate_group_from_pair], which has no [break]. *)
Fixpoint insert_products_pair (prods : list Matrix3)
    (grp : list Tuple9) (queue : list Matrix3) : list Tuple9 * list Matrix3 :=
  match prods with
  | [] => (grp, queue)
  | prod :: rest =>
      let prod_tuple := matrix_to_tuple prod in
      if tuple_mem prod_tuple grp then insert_products_pair rest grp queue
      else insert_products_pair rest (grp ++ [prod_tuple]) (queue ++ [prod])
  end.

Section Engine.

(** The order in which [list(group)] lists the set. *)
Variable set_order : list Tuple9 -> list Tuple9.

(** The two-element loop over [[prod1, prod2]]. *)
Variable insert :
  list Matrix3 -> list Tuple9 -> list Matrix3 -> list Tuple9 * list Matrix3.

(** [for elem_tuple in list(group)]: both products of [current] with every
    element of the snapshot. *)
Definition expand (current : Matrix3) (snapshot : list Tuple9)
    (grp : list Tuple9) (queue : list Matrix3) : list Tuple9 * list Matrix3 :=
  fold_left
    (fun st elem_tuple =>
       let elem := tuple_to_matrix elem_tuple in
       let prod1 := matrix_mult_mod3 current elem in
       let prod2 := matrix_mult_mod3 elem current in
       insert [prod1; prod2] (fst st) (snd st))
    snapshot (grp, queue).

(** [while to_process and len(group) < max_size]; the result is the state
    in which the loop condition fails, [None] when [fuel] iterations were
    not enough. *)
Fixpoint bfs (fuel : nat) (max_size : Z) (st : Closure) : option Closure :=
  match fuel with
  | O => None
  | S fuel' =>
      match to_process st with
      | [] => Some st
      | current :: rest =>
          if len (group st) <? max_size then
            let current_tuple := matrix_to_tuple current in
            if tuple_mem current_tuple (processed st) then
              bfs fuel' max_size (mkClosure (group st) rest (processed st))
            else
              let '(grp', queue') :=
                expand current (set_order (group st)) (group st) rest in
              bfs fuel' max_size
                  (mkClosure grp' queue' (processed st ++ [current_tuple]))
          else Some st
      end
  end.

End Engine.

(** The state before the loop: the identity, then the generators. *)
Definition initial (generators : list Matrix3) : Closure :=
  mkClosure
    (fold_left (fun g gen => set_add (matrix_to_tuple gen) g) generators
               (set_add (matrix_to_tuple identity) []))
    generators [].

(** Iterations granted to the loop; [bfs_fuel_enough] shows they suffice. *)
Definition closure_fuel (generators : list Matrix3) (max_size : Z) : nat :=
  (List.length generators + 3 * Z.to_nat max_size + 1)%nat.

(** [generate_group], with the loop variables it ends in. *)
Definition generate_group_run (set_order : list Tuple9 -> list Tuple9)
    (generators : list Matrix3) (max_size : Z) : option Closure :=
  bfs set_order (insert_products max_size)
      (closure_fuel generators max_size) max_size (initial generators).

(** [generate_group]: what the caller receives is the set alone. *)
Definition generate_group (set_order : list Tuple9 -> list Tuple9)
    (generators : list Matrix3) (max_size : Z) : option (list Tuple9) :=
  option_map group (generate_group_run set_order generators max_size).

(** [generate_group_from_pair]. *)
Definition generate_group_from_pair (set_order : list Tuple9 -> list Tuple9)
    (M1 M2 : Matrix3) (max_size : Z) : option (list Tuple9) :=
  option_map group
    (bfs set_order insert_products_pair
         (closure_fuel [M1; M2] max_size) max_size (initial [M1; M2])).

(** Insertion order, one admissible [set_order]. *)
Definition insertion_order (s : list Tuple9) : list Tuple9 := s.

(** The six operators [load_operators_108] falls back to. *)
Definition known_generators : list Matrix3 :=
  [ mk3 0 1 0  0 2 2  1 0 0;
    mk3 0 1 0  0 2 2  1 2 1;
    mk3 0 1 0  2 0 2  1 0 0;
    mk3 1 0 0  1 2 1  0 1 0;
    mk3 1 0 0  2 1 1  0 1 0;
    mk3 2 1 1  2 0 2  1 0 0 ].

(** ** Minimality of a generating tuple *)

(** A computation that may stop without a value: an uncaught Python
    exception ([IndexError], [ValueError]) or exhausted loop fuel. *)
Definition bind {A B : Type} (x : option A) (f : A -> option B) : option B :=
  match x with Some a => f a | None => None end.

Notation "x <- e ;; k" := (bind e (fun x => k))
  (at level 61, e at next level, right associativity).

(** [xs[i]] with Python's negative indices; [None] is [IndexError]. *)
Definition py_index {A : Type} (xs : list A) (i : Z) : option A :=
  if (0 <=? i) && (i <? len xs) then nth_error xs (Z.to_nat i)
  else if (- len xs <=? i) && (i <? 0) then nth_error xs (Z.to_nat (len xs + i))
  else None.

(** [[operators[i] for i in indices]]. *)
Fixpoint select_operators (operators : list Matrix3) (indices : list Z)
    : option (list Matrix3) :=
  match indices with
  | [] => Some []
  | i :: rest =>
      M <- py_index operators i ;;
      Ms <- select_operators operators rest ;;
      Some (M :: Ms)
  end.

(** [generating_tuple[:i] + generating_tuple[i+1:]]. *)
Definition remove_position (i : nat) (generating_tuple : list Z) : list Z :=
  firstn i generating_tuple ++ skipn (S i) generating_tuple.

Section Investigator.

Variable set_order : list Tuple9 -> list Tuple9.

(** [self.operators]. *)
Variable operators : list Matrix3.

(** [len(self.generate_group([operators[j] for j in indices], 432))]. *)
Definition closure_size (indices : list Z) : option Z :=
  generators <- select_operators operators indices ;;
  grp <- generate_group set_order generators 432 ;;
  Some (len grp).

(** [for i in range(k)] of [verify_minimality]. *)
Fixpoint check_removals (generating_tuple : list Z) (positions : list nat)
    : option bool :=
  match positions with
  | [] => Some true
  | i :: rest =>
      size <- closure_size (remove_position i generating_tuple) ;;
      if size =? 432 then Some false
      else check_removals generating_tuple rest
  end.

(** [verify_minimality]. *)
Definition verify_minimality (generating_tuple : list Z) : option bool :=
  let k := List.length generating_tuple in
  if Nat.eqb k 1 then Some true
  else
    size <- closure_size generating_tuple ;;
    if negb (size =? 432) then Some false
    else check_removals generating_tuple (seq 0 k).

End Investigator.

(** ** The operator-pool loader *)

(** Whitespace removed by [str.strip] and ignored by [int] (ASCII part). *)
Definition is_space (c : ascii) : bool :=
  let n := nat_of_ascii c in
  ((9 <=? n) && (n <=? 13) || (28 <=? n) && (n <=? 32))%nat.

Fixpoint lstrip (s : list ascii) : list ascii :=
  match s with
  | c :: rest => if is_space c then lstrip rest else s
  | [] => []
  end.

(** [line.strip()]. *)
Definition strip (s : list ascii) : list ascii :=
  rev (lstrip (rev (lstrip s))).

(** [s.split(',')]: never empty, one more part than there are commas. *)
Fixpoint split_comma (s : list ascii) : list (list ascii) :=
  match s with
  | [] => [[]]
  | c :: rest =>
      match split_comma rest with
      | part :: parts =>
          if Ascii.eqb c "," then [] :: part :: parts else (c :: part) :: parts
      | [] => [[c]]
      end
  end.

Definition digit_value (c : ascii) : option Z :=
  let n := nat_of_ascii c in
  if ((48 <=? n) && (n <=? 57))%nat then Some (Z.of_nat (n - 48)) else None.

(** Decimal digits, single underscores allowed between two digits;
    [need_digit] holds at the start and just after an underscore. *)
Fixpoint digits_value (acc : Z) (need_digit : bool) (s : list ascii) : option Z :=
  match s with
  | [] => if need_digit then None else Some acc
  | c :: rest =>
      match digit_value c with
      | Some d => digits_value (10 * acc + d) false rest
      | None =>
          if Ascii.eqb c "_" && negb need_digit then digits_value acc true rest
          else None
      end
  end.

(** [int(s)] on an ASCII string; [None] is [ValueError]. *)
Definition py_int (s : list ascii) : option Z :=
  match strip s with
  | c :: rest =>
      if Ascii.eqb c "-" then option_map Z.opp (digits_value 0 true rest)
      else if Ascii.eqb c "+" then digits_value 0 true rest
      else digits_value 0 true (c :: rest)
  | [] => None
  end.

(** What one record of the file does to the load. *)
Inductive RecordOutcome : Type :=
| Skipped
| Appended (M : Matrix3)
| Aborted.

(** The body of [for line in lines[1:]]. *)
Definition read_record (line : string) : RecordOutcome :=
  let parts := split_comma (strip (list_ascii_of_string line)) in
  if len parts >=? 10 then
    match map py_int (firstn 9 (skipn 1 parts)) with
    | [Some a; Some b; Some c; Some d; Some e; Some f; Some g; Some h; Some i] =>
        Appended (mk3 a b c d e f g h i)
    | _ => Aborted
    end
  else Skipped.

Fixpoint read_records (lines : list string) : option (list Matrix3) :=
  match lines with
  | [] => Some []
  | line :: rest =>
      match read_record line with
      | Skipped => read_records rest
      | Appended M => ops <- read_records rest ;; Some (M :: ops)
      | Aborted => None
      end
  end.

(** The operators read from one file, given as [f.readlines()]. *)
Definition read_pool (lines : list string) : option (list Matrix3) :=
  read_records (skipn 1 lines).

(** [load_operators_108]: the first candidate path that exists ([Some] of
    its lines) is read; with none, the six known generators are returned. *)
Fixpoint load_operators_108 (possible_paths : list (option (list string)))
    : option (list Matrix3) :=
  match possible_paths with
  | [] => Some known_generators
  | Some lines :: _ => read_pool lines
  | None :: rest => load_operators_108 rest
  end.

(** ** Specification vocabulary *)

(** [n] is the least positive exponent with [M^n = I] mod 3. *)
Definition has_order (M : Matrix3) (n : Z) : Prop :=
  0 < n /\ mat_pow M (Z.to_nat n) = identity /\
  forall m : nat, (0 < m < Z.to_nat n)%nat -> mat_pow M m <> identity.

Definition has_order_b (M : Matrix3) (n : Z) : bool :=
  (0 <? n) && array_equal (mat_pow M (Z.to_nat n)) identity &&
  forallb (fun m => negb (array_equal (mat_pow M m) identity))
          (seq 1 (Z.to_nat n - 1)).

(** What the engine needs from the two-element loop: it appends to the
    group and to the queue, queues no more than it adds, adds only keys of
    the products offered, keeps the group duplicate-free, and leaves the
    first product offered in the group. *)
Definition insert_spec
    (insert : list Matrix3 -> list Tuple9 -> list Matrix3 ->
              list Tuple9 * list Matrix3) : Prop :=
  forall prods grp queue,
  exists added newq,
    insert prods grp queue = (grp ++ added, queue ++ newq) /\
    (List.length newq <= List.length added <= List.length prods)%nat /\
    (NoDup grp -> NoDup (grp ++ added)) /\
    (forall t, In t added -> In t (map matrix_to_tuple prods)) /\
    (forall M, In M newq -> In M prods) /\
    (forall M rest, prods = M :: rest -> In (matrix_to_tuple M) (grp ++ added)).

(** The products one pass of [expand] offers, in the order it forms them. *)
Definition products_of (current : Matrix3) (snapshot : list Tuple9)
    : list Matrix3 :=
  flat_map (fun elem_tuple =>
              [matrix_mult_mod3 current (tuple_to_matrix elem_tuple);
               matrix_mult_mod3 (tuple_to_matrix elem_tuple) current])
           snapshot.

(** The [while] condition fails in [st]. *)
Definition loop_done (max_size : Z) (st : Closure) : Prop :=
  to_process st = [] \/ max_size <= len (group st).

(** How a run ended, in the words of the specification: truncated when the
    group has reached the cap, complete when the loop ended with the group
    still below the cap. The source computes no such value. *)
Inductive Ending : Type := Complete | Truncated.

Definition ending (max_size : Z) (st : Closure) : Ending :=
  if len (group st) <? max_size then Complete else Truncated.

(** Two seeds over F3 used below: the first two known generators; and the
    cyclic permutation matrix with its square. *)
Definition seed_pair : list Matrix3 := firstn 2 known_generators.

Definition cycle3 : Matrix3 := mk3 0 1 0  0 0 1  1 0 0.

Definition cycle3_squared : Matrix3 := mk3 0 0 1  1 0 0  0 1 0.

(** [s] lists no key twice. *)
Fixpoint distinct_b (s : list Tuple9) : bool :=
  match s with
  | [] => true
  | t :: rest => negb (tuple_mem t rest) && distinct_b rest
  end.








(** The products of [g] with [a] and with [b] are two different keys, both
    outside the set [s]. *)
Definition escapes (s : list Tuple9) (g a b : Matrix3) : bool :=
  let ka := matrix_to_tuple (matrix_mult_mod3 g a) in
  let kb := matrix_to_tuple (matrix_mult_mod3 g b) in
  negb (tuple_eqb ka kb) && negb (tuple_mem ka s) && negb (tuple_mem kb s).

(** A pool of 431 invertible matrices over F3, and the tuple of all its
    indices. *)
Definition pool_431 : list Matrix3 := firstn 431 generate_gl3_f3.

Definition tuple_431 : list Z := map Z.of_nat (seq 0 431).

Definition pool_431_rest : list Matrix3 := skipn 4 pool_431.

(** A family of matrices that holds the identity and is closed under
    multiplication mod 3. *)
Definition closed_family (F : Matrix3 -> Prop) : Prop :=
  F identity /\ forall A B, F A -> F B -> F (matrix_mult_mod3 A B).

(** Membership in the 432-set, as a predicate. *)
Definition in_432 (M : Matrix3) : Prop :=
  over_F3 M = true /\ det_mod3 M <> 0 /\ check_conservation M = true.

(** What a run that stays below [max_size] needs from the two-element
    loop: every key it adds belongs to a matrix it queues, and both
    products end in the group. *)
Definition insert_complete (max_size : Z)
    (insert : list Matrix3 -> list Tuple9 -> list Matrix3 ->
              list Tuple9 * list Matrix3) : Prop :=
  forall prods grp queue,
  exists added newq,
    insert prods grp queue = (grp ++ added, queue ++ newq) /\
    (forall M, In M newq -> In (matrix_to_tuple M) (grp ++ added)) /\
    (len (grp ++ added) < max_size ->
     (forall t, In t added -> In t (map matrix_to_tuple newq)) /\
     (forall M, In M prods -> In (matrix_to_tuple M) (grp ++ added))).

(** [s] is closed under multiplication mod 3. *)
Definition closed_under_mult (s : list Tuple9) : Prop :=
  forall a b, In a s -> In b s ->
    In (matrix_to_tuple
          (matrix_mult_mod3 (tuple_to_matrix a) (tuple_to_matrix b))) s.

(** The invariant of a run: the identity, the processed keys and the keys
    of the queued matrices are in the group; while the group is below
    [max_size] it holds nothing else, and it holds the product of any two
    of the identity and the processed keys. *)
Definition run_invariant (max_size : Z) (st : Closure) : Prop :=
  In (matrix_to_tuple identity) (group st) /\
  (forall t, In t (processed st) -> In t (group st)) /\
  (forall M, In M (to_process st) -> In (matrix_to_tuple M) (group st)) /\
  (len (group st) < max_size ->
   (forall t, In t (group st) ->
      t = matrix_to_tuple identity \/ In t (processed st) \/
      In t (map matrix_to_tuple (to_process st))) /\
   (forall a b,
      In a (matrix_to_tuple identity :: processed st) ->
      In b (matrix_to_tuple identity :: processed st) ->
      In (matrix_to_tuple
            (matrix_mult_mod3 (tuple_to_matrix a) (tuple_to_matrix b)))
         (group st))).

(** ** The search over singles and pairs *)

(** [itertools.combinations(range(n), 2)], in its lexicographic order. *)
Definition combinations2 (n : nat) : list (Z * Z) :=
  flat_map (fun i => map (fun j => (Z.of_nat i, Z.of_nat j))
                         (seq (S i) (n - S i)))
           (seq 0 n).

(** [if key not in d: d[key] = 0] then [d[key] += 1], on a dict kept in
    insertion order. *)
Fixpoint count_in (key : Z) (d : list (Z * Z)) : list (Z * Z) :=
  match d with
  | [] => [(key, 1)]
  | (k, v) :: rest =>
      if k =? key then (k, v + 1) :: rest else (k, v) :: count_in key rest
  end.

(** [a / b] on two lengths, at its exact value; [None] is
    [ZeroDivisionError]. *)
Definition quotient (a b : Z) : option Q :=
  if b =? 0 then None else Some (Qmake a (Z.to_pos b)).

(** The dict returned by [test_single_generators]. *)
Record SingleResults : Type := mkSingle {
  single_total_tested : Z;
  generating_indices : list Z;
  max_subgroup_size : Z;
  order_distribution : list (Z * Z) }.

(** The dict returned by [test_pairs]. *)
Record PairResults : Type := mkPair {
  pair_total_possible : Z;
  pair_total_tested : Z;
  generating_pairs : list (Z * Z);
  subgroup_sizes : list Z;
  size_distribution : list (Z * Z);
  proportion_generating : Q;
  average_subgroup_size : Q }.

(** The dict returned by [test_triples]. *)
Record TripleResults : Type := mkTriple {
  triple_total_possible : Z;
  triple_total_tested : Z;
  generating_triples : list (list Z);
  triple_subgroup_sizes : list Z;
  triple_size_distribution : list (Z * Z);
  triple_proportion_generating : Q;
  triple_average_subgroup_size : Q }.

(** The dict returned by [find_minimal_k], without its two time stamps. *)
Record Investigation : Type := mkInvestigation {
  n_operators : Z;
  results_k1 : SingleResults;
  results_k2 : option PairResults;
  results_k3 : option TripleResults;
  minimal_k : option Z;
  minimal_examples : option (list (list Z));
  verified_minimal : option Z }.

Section Search.

Variable set_order : list Tuple9 -> list Tuple9.

(** [self.operators]. *)
Variable operators : list Matrix3.

(** [for i in range(self.n_ops)] of [test_single_generators]. *)
Fixpoint single_loop (indices : list Z) (results : SingleResults)
    : option SingleResults :=
  match indices with
  | [] => Some results
  | i :: rest =>
      size <- closure_size set_order operators [i] ;;
      M <- py_index operators i ;;
      let order := compute_matrix_order M 20 in
      single_loop rest
        (mkSingle (single_total_tested results)
           (if size =? 432 then generating_indices results ++ [i]
            else generating_indices results)
           (Z.max (max_subgroup_size results) size)
           (count_in order (order_distribution results)))
  end.

(** [test_single_generators]. *)
Definition test_single_generators : option SingleResults :=
  single_loop (map Z.of_nat (seq 0 (List.length operators)))
              (mkSingle (len operators) [] 0 []).

(** [for idx, (i, j) in enumerate(pairs_to_test)] of [test_pairs]: the
    generating pairs, the sizes and the size distribution. *)
Fixpoint pair_loop (pairs : list (Z * Z))
    (acc : list (Z * Z) * list Z * list (Z * Z))
    : option (list (Z * Z) * list Z * list (Z * Z)) :=
  match pairs with
  | [] => Some acc
  | (i, j) :: rest =>
      size <- closure_size set_order operators [i; j] ;;
      let '(generating, sizes, distribution) := acc in
      pair_loop rest
        (if size =? 432 then generating ++ [(i, j)] else generating,
         sizes ++ [size], count_in size distribution)
  end.

(** [test_pairs]; [sampled] stands for what [random.sample(all_pairs,
    sample_size)] draws when a sample smaller than all pairs is asked, and
    [None] is its [ValueError] on a negative size or the
    [ZeroDivisionError] of the proportion on an empty list of pairs (the
    mean of the sizes is taken only after it, on as many sizes as pairs). *)
Definition test_pairs (sample_size : option Z) (sampled : list (Z * Z))
    : option PairResults :=
  let n := len operators in
  let total_pairs := n * (n - 1) / 2 in
  let all_pairs := combinations2 (List.length operators) in
  pairs_to_test <-
    match sample_size with
    | None => Some all_pairs
    | Some k =>
        if k >=? total_pairs then Some all_pairs
        else if k <? 0 then None else Some sampled
    end ;;
  acc <- pair_loop pairs_to_test ([], [], []) ;;
  let '(generating, sizes, distribution) := acc in
  proportion <- quotient (len generating) (len pairs_to_test) ;;
  average <- quotient (fold_left Z.add sizes 0) (len sizes) ;;
  Some (mkPair total_pairs (len pairs_to_test) generating sizes distribution
               proportion average).

(** [[pair for pair in pairs if self.verify_minimality(pair)]]. *)
Fixpoint minimal_among (pairs : list (Z * Z)) : option (list (Z * Z)) :=
  match pairs with
  | [] => Some []
  | (i, j) :: rest =>
      b <- verify_minimality set_order operators [i; j] ;;
      others <- minimal_among rest ;;
      Some (if b then (i, j) :: others else others)
  end.

(** [for idx, triple in enumerate(triples_to_test)] of [test_triples]. *)
Fixpoint triple_loop (triples : list (list Z))
    (acc : list (list Z) * list Z * list (Z * Z))
    : option (list (list Z) * list Z * list (Z * Z)) :=
  match triples with
  | [] => Some acc
  | triple :: rest =>
      size <- closure_size set_order operators triple ;;
      let '(generating, sizes, distribution) := acc in
      triple_loop rest
        (if size =? 432 then generating ++ [triple] else generating,
         sizes ++ [size], count_in size distribution)
  end.

(** [test_triples]; [drawn] stands for the triples the random draws give.
    [None] is the [ValueError] of [random.sample] on a population smaller
    than the sample, or the [ZeroDivisionError] of an empty sample. *)
Definition test_triples (sample_size : Z) (drawn : list (list Z))
    : option TripleResults :=
  let n := len operators in
  let total_triples := n * (n - 1) * (n - 2) / 6 in
  triples_to_test <-
    (if sample_size <? 10000 then
       if sample_size <=? 0 then Some []
       else if n <? 3 then None else Some drawn
     else if total_triples <? sample_size then None else Some drawn) ;;
  acc <- triple_loop triples_to_test ([], [], []) ;;
  let '(generating, sizes, distribution) := acc in
  proportion <- quotient (len generating) (len triples_to_test) ;;
  average <- quotient (fold_left Z.add sizes 0) (len sizes) ;;
  Some (mkTriple total_triples (len triples_to_test) generating sizes
                 distribution proportion average).

(** [find_minimal_k]; [drawn] stands for the random triples of
    [test_triples]. *)
Definition find_minimal_k (drawn : list (list Z)) : option Investigation :=
  single_results <- test_single_generators ;;
  match generating_indices single_results with
  | _ :: _ =>
      Some (mkInvestigation (len operators) single_results None None (Some 1)
              (Some (map (fun i => [i])
                         (firstn 10 (generating_indices single_results))))
              None)
  | [] =>
      pair_results <- test_pairs None [] ;;
      match generating_pairs pair_results with
      | _ :: _ =>
          minimal_pairs <-
            minimal_among (firstn 20 (generating_pairs pair_results)) ;;
          Some (mkInvestigation (len operators) single_results
                  (Some pair_results) None (Some 2)
                  (Some (map (fun p => [fst p; snd p])
                             (firstn 10 minimal_pairs)))
                  (Some (len minimal_pairs)))
      | [] =>
          triple_results <- test_triples 10000 drawn ;;
          match generating_triples triple_results with
          | _ :: _ =>
              Some (mkInvestigation (len operators) single_results
                      (Some pair_results) (Some triple_results) (Some 3)
                      (Some (firstn 10 (generating_triples triple_results)))
                      None)
          | [] =>
              Some (mkInvestigation (len operators) single_results
                      (Some pair_results) (Some triple_results) None None None)
          end
      end
  end.

End Search.

(** The [results] that [main] computes and saves: the pool given by
    [load_operators_108] handed to [find_minimal_k]. *)
Definition main_results (set_order : list Tuple9 -> list Tuple9)
    (possible_paths : list (option (list string))) (drawn : list (list Z))
    : option Investigation :=
  operators <- load_operators_108 possible_paths ;;
  find_minimal_k set_order operators drawn.

(** * Properties *)

(** ** Keys and membership *)

Lemma tuple_eqb_spec (s t : Tuple9) : tuple_eqb s t = true <-> s = t.
Proof.
  destruct s as [[[[[[[[a b] c] d] e] f] g] h] i].
  destruct t as [[[[[[[[a' b'] c'] d'] e'] f'] g'] h'] i'].
  unfold tuple_eqb. rewrite !andb_true_iff, !Z.eqb_eq. split.
  - intros [[[[[[[[-> ->] ->] ->] ->] ->] ->] ->] ->]. reflexivity.
  - intros H. injection H as -> -> -> -> -> -> -> -> ->. repeat split.
Qed.

Lemma tuple_mem_spec (t : Tuple9) (s : list Tuple9) :
  tuple_mem t s = true <-> In t s.
Proof.
  unfold tuple_mem. rewrite existsb_exists. split.
  - intros [x [Hx Heq]]. apply tuple_eqb_spec in Heq. now subst.
  - intros H. exists t. split; [assumption | now apply tuple_eqb_spec].
Qed.

Lemma tuple_mem_false (t : Tuple9) (s : list Tuple9) :
  tuple_mem t s = false <-> ~ In t s.
Proof.
  rewrite <- tuple_mem_spec. destruct (tuple_mem t s); split; congruence.
Qed.

Lemma tuple_to_matrix_to_tuple (M : Matrix3) :
  tuple_to_matrix (matrix_to_tuple M) = M.
Proof. destruct M; reflexivity. Qed.

Lemma matrix_to_tuple_to_matrix (t : Tuple9) :
  matrix_to_tuple (tuple_to_matrix t) = t.
Proof. destruct t as [[[[[[[[a b] c] d] e] f] g] h] i]; reflexivity. Qed.

Lemma matrix_to_tuple_inj (A B : Matrix3) :
  matrix_to_tuple A = matrix_to_tuple B -> A = B.
Proof.
  intros H. rewrite <- (tuple_to_matrix_to_tuple A), H.
  apply tuple_to_matrix_to_tuple.
Qed.

Lemma array_equal_spec (A B : Matrix3) : array_equal A B = true <-> A = B.
Proof.
  unfold array_equal. rewrite tuple_eqb_spec. split.
  - apply matrix_to_tuple_inj.
  - now intros ->.
Qed.

Lemma In_key (M : Matrix3) (l : list Matrix3) :
  In (matrix_to_tuple M) (map matrix_to_tuple l) <-> In M l.
Proof.
  rewrite in_map_iff. split.
  - intros [A [HA HIn]]. apply matrix_to_tuple_inj in HA. now subst.
  - intros H. now exists M.
Qed.

(** ** The enumeration lists exactly the matrices over F3 *)

Lemma product_repeat_In (xs : list Z) (n : nat) (l : list Z) :
  List.length l = n -> Forall (fun x => In x xs) l -> In l (product_repeat xs n).
Proof.
  revert l. induction n as [| n IH]; intros l Hlen Hall.
  - destruct l; [now left | discriminate].
  - destruct l as [| x l]; [discriminate |].
    inversion Hall as [| ? ? Hx Hl]; subst. simpl.
    apply in_flat_map. exists x. split; [assumption |].
    apply in_map. apply IH; [now injection Hlen | assumption].
Qed.

Lemma is_field_element_In (x : Z) :
  is_field_element x = true -> In x [0; 1; 2].
Proof.
  unfold is_field_element. rewrite andb_true_iff, Z.leb_le, Z.ltb_lt.
  intros [H0 H3]. simpl.
  assert (x = 0 \/ x = 1 \/ x = 2) as [-> | [-> | ->]] by lia; auto.
Qed.

Lemma raw_matrices_complete (M : Matrix3) :
  over_F3 M = true -> In M raw_matrices.
Proof.
  intros H. unfold raw_matrices. apply in_flat_map.
  exists (entries M). split.
  - apply product_repeat_In; [reflexivity |].
    unfold over_F3 in H. rewrite forallb_forall in H.
    apply Forall_forall. intros x Hx. apply is_field_element_In. now apply H.
  - destruct M; simpl. now left.
Qed.

Lemma raw_matrices_sound_b : forallb over_F3 raw_matrices = true.
Proof. vm_compute. reflexivity. Qed.

Lemma raw_matrices_sound (M : Matrix3) :
  In M raw_matrices -> over_F3 M = true.
Proof. intros H. exact (proj1 (forallb_forall _ _) raw_matrices_sound_b M H). Qed.

Lemma generate_gl3_f3_spec (M : Matrix3) :
  In M generate_gl3_f3 <-> over_F3 M = true /\ det_mod3 M <> 0.
Proof.
  unfold generate_gl3_f3. rewrite filter_In, negb_true_iff, Z.eqb_neq. split.
  - intros [H1 H2]. split; [now apply raw_matrices_sound | assumption].
  - intros [H1 H2]. split; [now apply raw_matrices_complete | assumption].
Qed.

(** ** Filtration cascade *)

Lemma row_and_col_conservation (M : Matrix3) :
  check_row_and_col M = true -> check_conservation M = true.
Proof.
  unfold check_row_and_col, check_conservation.
  rewrite andb_true_iff. now intros [H _].
Qed.

(** C1. Among the 19,683 raw matrices over {0,1,2}, which are exactly the
    matrices with entries in {0,1,2}, 11,232 have a determinant that is not
    0 mod 3; of these 432 are row-stochastic and 54 doubly stochastic, and
    each of the 54 is one of the 432. *)
Theorem filtration_cascade_counts :
  (forall M, In M raw_matrices <-> over_F3 M = true) /\
  len raw_matrices = 19683 /\
  len generate_gl3_f3 = 11232 /\
  len (filter check_conservation generate_gl3_f3) = 432 /\
  len (filter check_row_and_col generate_gl3_f3) = 54 /\
  (forall M, In M (filter check_row_and_col generate_gl3_f3) ->
             In M (filter check_conservation generate_gl3_f3)).
Proof.
  split; [| split; [| split; [| split; [| split]]]].
  - intros M. split; [apply raw_matrices_sound | apply raw_matrices_complete].
  - vm_compute. reflexivity.
  - vm_compute. reflexivity.
  - vm_compute. reflexivity.
  - vm_compute. reflexivity.
  - intros M. rewrite !filter_In. intros [HM Hrc].
    split; [assumption | now apply row_and_col_conservation].
Qed.

(** C5. Conservation together with [check_normalizes_h] leaves exactly 108
    of the matrices of GL(3,F3). *)
Theorem conservation_and_kernel_yield_108 :
  len (filter (fun M => check_conservation M && check_normalizes_h M)
              generate_gl3_f3) = 108.
Proof. vm_compute. reflexivity. Qed.

Lemma normalizes_h_redundant_b :
  forallb (fun M => Bool.eqb (check_normalizes_h M)
                             (check_normalizes_h_basis_only M))
          raw_matrices = true.
Proof. vm_compute. reflexivity. Qed.

(** C7. On a matrix with entries in {0,1,2}, [check_normalizes_h] (basis
    vectors and the eight non-zero combinations) answers as the check of
    the two basis vectors alone. *)
Theorem normalizes_h_basis_suffices (M : Matrix3) :
  over_F3 M = true ->
  check_normalizes_h M = check_normalizes_h_basis_only M.
Proof.
  intros H. apply raw_matrices_complete in H.
  apply (proj1 (forallb_forall _ _) normalizes_h_redundant_b) in H.
  now apply eqb_prop.
Qed.

Lemma normalizes_h_basis_suffices_witness :
  over_F3 identity = true /\
  check_normalizes_h identity = check_normalizes_h_basis_only identity.
Proof.
  split; [reflexivity |].
  apply (normalizes_h_basis_suffices identity). reflexivity.
Defined.

(** ** The 54-element set is a group of elements of order 1, 2, 3 or 6 *)

Lemma has_order_b_spec (M : Matrix3) (n : Z) :
  has_order_b M n = true -> has_order M n.
Proof.
  unfold has_order_b, has_order.
  rewrite !andb_true_iff, Z.ltb_lt, array_equal_spec, forallb_forall.
  intros [[Hn Hpow] Hleast]. repeat split; try assumption.
  intros m Hm Heq.
  assert (Hin : In m (seq 1 (Z.to_nat n - 1))) by (apply in_seq; lia).
  apply Hleast in Hin. apply negb_true_iff in Hin.
  apply array_equal_spec in Heq. congruence.
Qed.

Lemma ops_54_closed_b :
  forallb (fun A => forallb (fun B =>
     tuple_mem (matrix_to_tuple (matrix_mult_mod3 A B)) set_54) ops_54) ops_54
  = true.
Proof. vm_compute. reflexivity. Qed.

Lemma ops_54_closed (A B : Matrix3) :
  In A ops_54 -> In B ops_54 -> In (matrix_mult_mod3 A B) ops_54.
Proof.
  intros HA HB.
  pose proof (proj1 (forallb_forall _ _) ops_54_closed_b A HA) as H.
  pose proof (proj1 (forallb_forall _ _) H B HB) as H'.
  apply tuple_mem_spec in H'. now apply In_key in H'.
Qed.

Lemma identity_in_ops_54 : In identity ops_54.
Proof.
  apply In_key. apply tuple_mem_spec. vm_compute. reflexivity.
Qed.

Lemma ops_54_orders_b :
  forallb (fun M =>
     match compute_order M with
     | Some n =>
         existsb (Z.eqb n) [1; 2; 3; 6] && has_order_b M n &&
         (compute_matrix_order M 20 =? n)
     | None => false
     end) ops_54 = true.
Proof. vm_compute. reflexivity. Qed.

(** C2. The 54 doubly stochastic matrices are closed under multiplication
    mod 3 and contain the identity; on each of them [compute_order] returns
    the least positive exponent that gives the identity, that exponent is
    1, 2, 3 or 6, and neither sentinel ([None], [-1]) is returned. *)
Theorem doubly_stochastic_is_group :
  (forall A B, In A ops_54 -> In B ops_54 -> In (matrix_mult_mod3 A B) ops_54) /\
  In identity ops_54 /\
  (forall M, In M ops_54 ->
     exists n, compute_order M = Some n /\ compute_matrix_order M 20 = n /\
               In n [1; 2; 3; 6] /\ n <= 20 /\ has_order M n).
Proof.
  split; [exact ops_54_closed | split; [exact identity_in_ops_54 |]].
  intros M HM.
  pose proof (proj1 (forallb_forall _ _) ops_54_orders_b M HM) as H.
  cbv beta in H. destruct (compute_order M) as [n |]; [| discriminate].
  rewrite !andb_true_iff in H. destruct H as [[Hset Hord] Hsent].
  exists n. apply Z.eqb_eq in Hsent. apply has_order_b_spec in Hord.
  apply existsb_exists in Hset. destruct Hset as [x [Hx Hnx]].
  apply Z.eqb_eq in Hnx. subst x.
  split; [reflexivity |]. split; [assumption |]. split; [assumption |].
  split; [simpl in Hx; lia | assumption].
Qed.

(** ** The two-element loop *)

Ltac split6 := refine (conj _ (conj _ (conj _ (conj _ (conj _ _))))).

Lemma NoDup_snoc (t : Tuple9) (grp : list Tuple9) :
  ~ In t grp -> NoDup grp -> NoDup (grp ++ [t]).
Proof.
  intros Hnot Hnd. apply NoDup_app; [assumption | repeat constructor; auto |].
  intros x Hx [<- | []]. now apply Hnot.
Qed.

Lemma insert_products_spec (max_size : Z) : insert_spec (insert_products max_size).
Proof.
  intros prods. induction prods as [| prod rest IH]; intros grp queue.
  - exists [], []. simpl. rewrite !app_nil_r. split6; auto; try contradiction.
    discriminate.
  - simpl. destruct (tuple_mem (matrix_to_tuple prod) grp) eqn:Hmem.
    + destruct (IH grp queue) as (added & newq & Heq & Hlen & Hnd & Hk & Hq & _).
      exists added, newq. rewrite Heq. split6; auto; try lia.
      * intros M rest' [= <- _]. apply in_or_app. left.
        now apply tuple_mem_spec.
    + apply tuple_mem_false in Hmem.
      destruct (len (grp ++ [matrix_to_tuple prod]) >=? max_size).
      * exists [matrix_to_tuple prod], []. rewrite app_nil_r. simpl.
        split6; auto; try lia; try contradiction.
        -- now apply NoDup_snoc.
        -- intros t [<- | []]. now left.
        -- intros M rest' [= <- _]. apply in_or_app. right. now left.
      * destruct (IH (grp ++ [matrix_to_tuple prod]) (queue ++ [prod]))
          as (added & newq & Heq & Hlen & Hnd & Hk & Hq & _).
        exists (matrix_to_tuple prod :: added), (prod :: newq).
        rewrite Heq, <- !app_assoc. simpl. split6; auto; try lia.
        -- intros Hg. specialize (Hnd (NoDup_snoc _ _ Hmem Hg)).
           now rewrite <- app_assoc in Hnd.
        -- intros t [<- | Ht]; [now left | right; now apply Hk].
        -- intros M [<- | HM]; [now left | right; now apply Hq].
        -- intros M rest' [= <- _]. apply in_or_app. right. now left.
Qed.

Lemma insert_products_pair_spec : insert_spec insert_products_pair.
Proof.
  intros prods. induction prods as [| prod rest IH]; intros grp queue.
  - exists [], []. simpl. rewrite !app_nil_r. split6; auto; try contradiction.
    discriminate.
  - simpl. destruct (tuple_mem (matrix_to_tuple prod) grp) eqn:Hmem.
    + destruct (IH grp queue) as (added & newq & Heq & Hlen & Hnd & Hk & Hq & _).
      exists added, newq. rewrite Heq. split6; auto; try lia.
      * intros M rest' [= <- _]. apply in_or_app. left.
        now apply tuple_mem_spec.
    + apply tuple_mem_false in Hmem.
      destruct (IH (grp ++ [matrix_to_tuple prod]) (queue ++ [prod]))
        as (added & newq & Heq & Hlen & Hnd & Hk & Hq & _).
      exists (matrix_to_tuple prod :: added), (prod :: newq).
      rewrite Heq, <- !app_assoc. simpl. split6; auto; try lia.
      * intros Hg. specialize (Hnd (NoDup_snoc _ _ Hmem Hg)).
        now rewrite <- app_assoc in Hnd.
      * intros t [<- | Ht]; [now left | right; now apply Hk].
      * intros M [<- | HM]; [now left | right; now apply Hq].
      * intros M rest' [= <- _]. apply in_or_app. right. now left.
Qed.

(** ** One pass over the snapshot, and the loop *)

Section EngineFacts.

Variable set_order : list Tuple9 -> list Tuple9.
Variable insert :
  list Matrix3 -> list Tuple9 -> list Matrix3 -> list Tuple9 * list Matrix3.
Variable max_size : Z.

Hypothesis set_order_perm : forall s, Permutation (set_order s) s.
Hypothesis insert_ok : insert_spec insert.

Lemma expand_spec (current : Matrix3) (snapshot : list Tuple9) :
  forall grp queue,
  exists added newq,
    expand insert current snapshot grp queue = (grp ++ added, queue ++ newq) /\
    (List.length newq <= List.length added <= 2 * List.length snapshot)%nat /\
    (NoDup grp -> NoDup (grp ++ added)) /\
    (forall t, In t added ->
               In t (map matrix_to_tuple (products_of current snapshot))) /\
    (forall M, In M newq -> In M (products_of current snapshot)) /\
    (forall e, In e snapshot ->
       In (matrix_to_tuple (matrix_mult_mod3 current (tuple_to_matrix e)))
          (grp ++ added)).
Proof.
  induction snapshot as [| e snap IH]; intros grp queue.
  - exists [], []. unfold expand. simpl. rewrite !app_nil_r.
    split6; auto; contradiction.
  - unfold expand. simpl fold_left.
    destruct (insert_ok
                [matrix_mult_mod3 current (tuple_to_matrix e);
                 matrix_mult_mod3 (tuple_to_matrix e) current] grp queue)
      as (a1 & q1 & Heq1 & Hlen1 & Hnd1 & Hk1 & Hq1 & Hfst1).
    rewrite Heq1. simpl fst. simpl snd.
    destruct (IH (grp ++ a1) (queue ++ q1))
      as (a2 & q2 & Heq2 & Hlen2 & Hnd2 & Hk2 & Hq2 & Hfst2).
    unfold expand in Heq2. rewrite Heq2.
    exists (a1 ++ a2), (q1 ++ q2). rewrite !app_assoc.
    simpl in Hlen1. split6.
    + reflexivity.
    + rewrite !length_app. simpl. lia.
    + intros Hg. auto.
    + intros t Ht. apply in_app_or in Ht. simpl.
      destruct Ht as [Ht | Ht].
      * apply Hk1 in Ht. simpl in Ht. tauto.
      * right. right. now apply Hk2.
    + intros M HM. apply in_app_or in HM. simpl.
      destruct HM as [HM | HM].
      * apply Hq1 in HM. simpl in HM. simpl. tauto.
      * right. right. now apply Hq2.
    + intros e' [<- | He'].
      * apply in_or_app. left. now apply (Hfst1 _ _ eq_refl).
      * now apply Hfst2.
Qed.

(** An invariant of the loop holds in the state it ends in, and the loop
    condition fails there. *)
Lemma bfs_rule (P : Closure -> Prop) :
  (forall st current rest,
      to_process st = current :: rest -> len (group st) < max_size ->
      tuple_mem (matrix_to_tuple current) (processed st) = true ->
      P st -> P (mkClosure (group st) rest (processed st))) ->
  (forall st current rest grp' queue',
      to_process st = current :: rest -> len (group st) < max_size ->
      tuple_mem (matrix_to_tuple current) (processed st) = false ->
      expand insert current (set_order (group st)) (group st) rest
        = (grp', queue') ->
      P st ->
      P (mkClosure grp' queue' (processed st ++ [matrix_to_tuple current]))) ->
  forall fuel st st',
    bfs set_order insert fuel max_size st = Some st' ->
    P st -> P st' /\ loop_done max_size st'.
Proof.
  intros Hskip Hexp. induction fuel as [| fuel IH]; intros st st' Hrun HP.
  - discriminate.
  - simpl in Hrun. destruct (to_process st) as [| current rest] eqn:Hq.
    + injection Hrun as <-. split; [assumption | now left].
    + destruct (len (group st) <? max_size) eqn:Hlt.
      * apply Z.ltb_lt in Hlt.
        destruct (tuple_mem (matrix_to_tuple current) (processed st)) eqn:Hp.
        -- apply (IH _ _ Hrun). now apply (Hskip st current rest).
        -- destruct (expand insert current (set_order (group st)) (group st) rest)
             as [grp' queue'] eqn:He.
           apply (IH _ _ Hrun). now apply (Hexp st current rest).
      * apply Z.ltb_ge in Hlt. injection Hrun as <-.
        split; [assumption | now right].
Qed.

(** The loop ends: each iteration shortens the queue or grows the group,
    and an iteration starts only below [max_size]. *)
Lemma bfs_fuel_enough :
  forall fuel st,
    (List.length (to_process st)
     + (3 * Z.to_nat max_size - List.length (group st)) < fuel)%nat ->
    exists st', bfs set_order insert fuel max_size st = Some st'.
Proof.
  induction fuel as [| fuel IH]; intros st Hfuel; [lia |].
  simpl. destruct (to_process st) as [| current rest] eqn:Hq.
  - now exists st.
  - destruct (len (group st) <? max_size) eqn:Hlt; [| now exists st].
    apply Z.ltb_lt in Hlt. unfold len in Hlt. simpl in Hfuel.
    destruct (tuple_mem (matrix_to_tuple current) (processed st)).
    + apply IH. simpl. lia.
    + destruct (expand_spec current (set_order (group st)) (group st) rest)
        as (added & newq & Heq & Hlen & _).
      rewrite Heq. apply IH. simpl.
      rewrite (Permutation_length (set_order_perm (group st))) in Hlen.
      rewrite !length_app. lia.
Qed.

End EngineFacts.

(** ** The state before the loop *)

Lemma set_add_In (t u : Tuple9) (s : list Tuple9) :
  In u (set_add t s) <-> u = t \/ In u s.
Proof.
  unfold set_add. destruct (tuple_mem t s) eqn:Hmem.
  - apply tuple_mem_spec in Hmem. split; [now right |].
    intros [-> | H]; assumption.
  - rewrite in_app_iff. simpl. intuition.
Qed.

Lemma set_add_NoDup (t : Tuple9) (s : list Tuple9) :
  NoDup s -> NoDup (set_add t s).
Proof.
  intros Hnd. unfold set_add. destruct (tuple_mem t s) eqn:Hmem; [assumption |].
  apply tuple_mem_false in Hmem. now apply NoDup_snoc.
Qed.

Lemma set_add_length (t : Tuple9) (s : list Tuple9) :
  (List.length (set_add t s) <= S (List.length s))%nat.
Proof.
  unfold set_add. destruct (tuple_mem t s); [lia |].
  rewrite length_app. simpl. lia.
Qed.

Lemma add_generators_spec (generators : list Matrix3) :
  forall s,
    let s' := fold_left (fun g gen => set_add (matrix_to_tuple gen) g)
                        generators s in
    (forall t, In t s' <-> In t s \/ In t (map matrix_to_tuple generators)) /\
    (NoDup s -> NoDup s') /\
    (List.length s' <= List.length s + List.length generators)%nat.
Proof.
  induction generators as [| gen gens IH]; intros s; simpl.
  - repeat split; auto; try lia; tauto.
  - destruct (IH (set_add (matrix_to_tuple gen) s)) as (Hin & Hnd & Hlen).
    split; [| split].
    + intros t. rewrite Hin, set_add_In. intuition.
    + intros H. apply Hnd. now apply set_add_NoDup.
    + pose proof (set_add_length (matrix_to_tuple gen) s). lia.
Qed.

Lemma initial_group_In (generators : list Matrix3) (t : Tuple9) :
  In t (group (initial generators)) <->
  t = matrix_to_tuple identity \/ In t (map matrix_to_tuple generators).
Proof.
  unfold initial. simpl group.
  destruct (add_generators_spec generators [matrix_to_tuple identity])
    as (Hin & _). simpl in Hin. rewrite Hin. simpl. intuition.
Qed.

Lemma initial_group_NoDup (generators : list Matrix3) :
  NoDup (group (initial generators)).
Proof.
  unfold initial. simpl group.
  destruct (add_generators_spec generators [matrix_to_tuple identity])
    as (_ & Hnd & _). apply Hnd. repeat constructor. simpl. tauto.
Qed.

(** ** [generate_group] returns, and what its result tells *)

Section GenerateGroupFacts.

Variable set_order : list Tuple9 -> list Tuple9.
Hypothesis set_order_perm : forall s, Permutation (set_order s) s.

Lemma generate_group_run_total (generators : list Matrix3) (max_size : Z) :
  exists st, generate_group_run set_order generators max_size = Some st.
Proof.
  unfold generate_group_run.
  apply bfs_fuel_enough;
    [assumption | apply insert_products_spec |].
  unfold closure_fuel, initial. simpl. lia.
Qed.

Lemma generate_group_run_done (generators : list Matrix3) (max_size : Z)
    (st : Closure) :
  generate_group_run set_order generators max_size = Some st ->
  loop_done max_size st.
Proof.
  intros Hrun.
  apply (bfs_rule set_order (insert_products max_size) max_size
                  (fun _ => True)) in Hrun; auto.
  apply Hrun.
Qed.

Lemma generate_group_run_NoDup (generators : list Matrix3) (max_size : Z)
    (st : Closure) :
  generate_group_run set_order generators max_size = Some st ->
  NoDup (group st).
Proof.
  intros Hrun.
  apply (bfs_rule set_order (insert_products max_size) max_size
                  (fun st => NoDup (group st))) in Hrun.
  - apply Hrun.
  - auto.
  - intros st0 current rest grp' queue' _ _ _ He Hnd. simpl.
    destruct (expand_spec (insert_products max_size)
                (insert_products_spec max_size) current
                (set_order (group st0)) (group st0) rest)
      as (added & newq & Heq & _ & Hnd' & _).
    rewrite Heq in He. injection He as <- <-. auto.
  - apply initial_group_NoDup.
Qed.

Lemma generate_group_some (generators : list Matrix3) (max_size : Z)
    (grp : list Tuple9) :
  generate_group set_order generators max_size = Some grp <->
  exists st, generate_group_run set_order generators max_size = Some st /\
             group st = grp.
Proof.
  unfold generate_group.
  destruct (generate_group_run set_order generators max_size) as [st |];
    simpl; split.
  - intros [= <-]. now exists st.
  - intros [st' [[= <-] <-]]. reflexivity.
  - discriminate.
  - intros [st' [[=] _]].
Qed.

End GenerateGroupFacts.

(** C4 (as amended). [generate_group] hands back the set of tuples and
    nothing else. It always returns. Only a caller who knows the cap can
    tell how the run ended, from the size of the set: it has fewer than
    [max_size] elements exactly when the run is complete, and the loop then
    ended on an empty queue; it has at least [max_size] elements exactly
    when the run is truncated, and a run that ends with work still queued
    is truncated. *)
Theorem generate_group_result_is_the_set_alone
    (set_order : list Tuple9 -> list Tuple9)
    (generators : list Matrix3) (max_size : Z) :
  (forall s, Permutation (set_order s) s) ->
  exists st,
    generate_group_run set_order generators max_size = Some st /\
    generate_group set_order generators max_size = Some (group st) /\
    (ending max_size st = Complete <-> len (group st) < max_size) /\
    (ending max_size st = Truncated <-> max_size <= len (group st)) /\
    (ending max_size st = Complete -> to_process st = []) /\
    (to_process st <> [] -> ending max_size st = Truncated).
Proof.
  intros Hperm.
  destruct (generate_group_run_total set_order Hperm generators max_size)
    as [st Hrun].
  exists st. split; [assumption |]. split.
  - unfold generate_group. now rewrite Hrun.
  - pose proof (generate_group_run_done set_order generators max_size st Hrun)
      as Hdone.
    unfold ending.
    destruct (Z.ltb_spec (len (group st)) max_size) as [Hlt | Hge].
    + destruct Hdone as [Hq | Hcap]; [| lia].
      repeat split; auto; try discriminate; try lia.
      intros Hne. now rewrite Hq in Hne.
    + repeat split; auto; try discriminate; try lia.
Qed.

Lemma generate_group_result_is_the_set_alone_witness :
  exists st,
    generate_group_run insertion_order known_generators 432 = Some st /\
    generate_group insertion_order known_generators 432 = Some (group st) /\
    (ending 432 st = Complete <-> len (group st) < 432) /\
    (ending 432 st = Truncated <-> 432 <= len (group st)) /\
    (ending 432 st = Complete -> to_process st = []) /\
    (to_process st <> [] -> ending 432 st = Truncated).
Proof.
  apply (generate_group_result_is_the_set_alone insertion_order
           known_generators 432).
  intros s. apply Permutation_refl.
Defined.

(** C4 (the claim as stated fails). Seeded with the 3-cycle and the cap 4,
    the run is complete: its queue empties with three elements, below the
    cap. Seeded with the 3-cycle and its square and the cap 3, the run is
    truncated: the cap is met before the loop starts and both seeds stay
    queued. Both calls return the same set: the result does not record
    which happened. *)
Lemma ending_not_recorded_in_result :
  generate_group insertion_order [cycle3] 4
    = generate_group insertion_order [cycle3; cycle3_squared] 3 /\
  option_map (ending 4) (generate_group_run insertion_order [cycle3] 4)
    = Some Complete /\
  option_map to_process (generate_group_run insertion_order [cycle3] 4)
    = Some [] /\
  option_map processed (generate_group_run insertion_order [cycle3] 4)
    = Some [matrix_to_tuple cycle3; matrix_to_tuple cycle3_squared] /\
  option_map (ending 3)
    (generate_group_run insertion_order [cycle3; cycle3_squared] 3)
    = Some Truncated /\
  option_map to_process
    (generate_group_run insertion_order [cycle3; cycle3_squared] 3)
    = Some [cycle3; cycle3_squared].
Proof. vm_compute. repeat split. Qed.

(** ** The cap is overshot *)

(** C3 (failing input). Seeded with the first two known generators and
    [max_size = 4] (three elements before the loop), [generate_group]
    returns five elements and [generate_group_from_pair] six. *)
Theorem closure_exceeds_cap :
  forallb over_F3 seed_pair = true /\
  len (group (initial seed_pair)) + 1 <= 4 /\
  option_map len (generate_group insertion_order seed_pair 4) = Some 5 /\
  option_map len
    (generate_group_from_pair insertion_order
       (mk3 0 1 0  0 2 2  1 0 0) (mk3 0 1 0  0 2 2  1 2 1) 4) = Some 6.
Proof. vm_compute. repeat split; discriminate. Qed.

Lemma permutation3 {A : Type} (a b c : A) (l : list A) :
  Permutation [a; b; c] l ->
  In l [[a; b; c]; [a; c; b]; [b; a; c]; [c; a; b]; [b; c; a]; [c; b; a]].
Proof.
  intros H.
  assert (Ha : In a l) by (eapply Permutation_in; [exact H | now left]).
  apply in_split in Ha. destruct Ha as (l1 & l2 & ->).
  apply Permutation_cons_app_inv in H.
  apply Permutation_length_2_inv in H.
  destruct l1 as [| x [| y [| z l1]]]; simpl in *;
    destruct H as [H | H]; inversion H; subst; simpl; tauto.
Qed.

(** One iteration that ends the loop. *)

Lemma bfs_unfold set_order insert fuel max_size st :
  bfs set_order insert (S fuel) max_size st =
  match to_process st with
  | [] => Some st
  | current :: rest =>
      if len (group st) <? max_size then
        if tuple_mem (matrix_to_tuple current) (processed st) then
          bfs set_order insert fuel max_size
              (mkClosure (group st) rest (processed st))
        else
          let '(grp', queue') :=
            expand insert current (set_order (group st)) (group st) rest in
          bfs set_order insert fuel max_size
              (mkClosure grp' queue' (processed st ++ [matrix_to_tuple current]))
      else Some st
  end.
Proof. reflexivity. Qed.

Lemma bfs_stops set_order insert fuel max_size st :
  (len (group st) <? max_size) = false ->
  bfs set_order insert (S fuel) max_size st = Some st.
Proof.
  intros H. rewrite bfs_unfold, H. now destruct (to_process st).
Qed.

Lemma bfs_one_pass set_order insert fuel max_size st current rest grp' queue' :
  to_process st = current :: rest ->
  (len (group st) <? max_size) = true ->
  tuple_mem (matrix_to_tuple current) (processed st) = false ->
  expand insert current (set_order (group st)) (group st) rest = (grp', queue') ->
  (len grp' <? max_size) = false ->
  bfs set_order insert (S (S fuel)) max_size st =
  Some (mkClosure grp' queue' (processed st ++ [matrix_to_tuple current])).
Proof.
  intros Hq Hlt Hp He Hdone.
  rewrite bfs_unfold, Hq, Hlt, Hp, He. now apply bfs_stops.
Qed.

(** The overshoot does not depend on the order in which the set is walked. *)
Lemma closure_exceeds_cap_any_order (set_order : list Tuple9 -> list Tuple9) :
  (forall s, Permutation (set_order s) s) ->
  option_map len (generate_group set_order seed_pair 4) = Some 5 /\
  option_map len
    (generate_group_from_pair set_order
       (mk3 0 1 0  0 2 2  1 0 0) (mk3 0 1 0  0 2 2  1 2 1) 4) = Some 6.
Proof.
  intros Hperm.
  pose proof (Permutation_sym (Hperm (group (initial seed_pair)))) as Hp.
  change (group (initial seed_pair)) with
    [(1, 0, 0, 0, 1, 0, 0, 0, 1); (0, 1, 0, 0, 2, 2, 1, 0, 0);
     (0, 1, 0, 0, 2, 2, 1, 2, 1)] in Hp at 1.
  apply permutation3 in Hp.
  unfold generate_group, generate_group_from_pair, generate_group_run.
  change (closure_fuel seed_pair 4) with (S (S 13)).
  change (closure_fuel [mk3 0 1 0 0 2 2 1 0 0; mk3 0 1 0 0 2 2 1 2 1] 4)
    with (S (S 13)).
  change [mk3 0 1 0 0 2 2 1 0 0; mk3 0 1 0 0 2 2 1 2 1] with seed_pair.
  cbn [In] in Hp.
  destruct Hp as [Hp | [Hp | [Hp | [Hp | [Hp | [Hp | []]]]]]]; split;
    (erewrite bfs_one_pass;
     [ | reflexivity | reflexivity | reflexivity
       | rewrite <- Hp; vm_compute; reflexivity | reflexivity ];
     reflexivity).
Qed.

(** ** A closed seed is returned unchanged *)

Lemma distinct_b_NoDup (s : list Tuple9) : distinct_b s = true -> NoDup s.
Proof.
  induction s as [| t rest IH]; simpl; [constructor |].
  rewrite andb_true_iff, negb_true_iff, tuple_mem_false.
  intros [Hnot Hrest]. constructor; auto.
Qed.

Lemma insert_products_noop (max_size : Z) (prods : list Matrix3)
    (grp : list Tuple9) (queue : list Matrix3) :
  (forall M, In M prods -> In (matrix_to_tuple M) grp) ->
  insert_products max_size prods grp queue = (grp, queue).
Proof.
  induction prods as [| prod rest IH]; intros Hall; simpl; [reflexivity |].
  assert (Hmem : tuple_mem (matrix_to_tuple prod) grp = true).
  { apply tuple_mem_spec. apply Hall. now left. }
  rewrite Hmem. apply IH. intros M HM. apply Hall. now right.
Qed.

Lemma expand_noop (max_size : Z) (current : Matrix3) (snapshot : list Tuple9)
    (grp : list Tuple9) (queue : list Matrix3) :
  (forall M, In M (products_of current snapshot) -> In (matrix_to_tuple M) grp) ->
  expand (insert_products max_size) current snapshot grp queue = (grp, queue).
Proof.
  induction snapshot as [| e snap IH]; intros Hall; [reflexivity |].
  unfold expand. cbn [fold_left fst snd].
  rewrite insert_products_noop.
  - apply IH. intros M HM. apply Hall. simpl. auto.
  - intros M HM. apply Hall. simpl. simpl in HM. tauto.
Qed.

(** On a group that already holds every product with the queued matrices,
    the loop only empties the queue. *)
Lemma bfs_drain (set_order : list Tuple9 -> list Tuple9) (max_size : Z) :
  (forall s, Permutation (set_order s) s) ->
  forall fuel st,
    (List.length (to_process st) < fuel)%nat ->
    (forall current e, In current (to_process st) -> In e (group st) ->
       In (matrix_to_tuple (matrix_mult_mod3 current (tuple_to_matrix e))) (group st) /\
       In (matrix_to_tuple (matrix_mult_mod3 (tuple_to_matrix e) current)) (group st)) ->
    exists st', bfs set_order (insert_products max_size) fuel max_size st = Some st' /\
                group st' = group st.
Proof.
  intros Hperm. induction fuel as [| fuel IH]; intros st Hfuel Hclosed; [lia |].
  rewrite bfs_unfold. destruct (to_process st) as [| current rest] eqn:Hq.
  - now exists st.
  - destruct (len (group st) <? max_size); [| now exists st].
    simpl in Hfuel.
    assert (Hrest : forall c e, In c rest -> In e (group st) ->
       In (matrix_to_tuple (matrix_mult_mod3 c (tuple_to_matrix e))) (group st) /\
       In (matrix_to_tuple (matrix_mult_mod3 (tuple_to_matrix e) c)) (group st)).
    { intros c e Hc He. apply Hclosed; [now right | assumption]. }
    destruct (tuple_mem (matrix_to_tuple current) (processed st)).
    + destruct (IH (mkClosure (group st) rest (processed st))) as [st' [Hrun Hg]];
        simpl; auto; try lia.
      now exists st'.
    + rewrite expand_noop.
      * destruct (IH (mkClosure (group st) rest
                        (processed st ++ [matrix_to_tuple current])))
          as [st' [Hrun Hg]]; simpl; auto; try lia.
        now exists st'.
      * intros M HM. unfold products_of in HM. apply in_flat_map in HM.
        destruct HM as [e [He HM]].
        apply (Permutation_in _ (Hperm (group st))) in He.
        destruct (Hclosed current e (or_introl eq_refl) He) as [H1 H2].
        simpl in HM. destruct HM as [<- | [<- | []]]; assumption.
Qed.

Lemma set_54_distinct : NoDup set_54.
Proof. apply distinct_b_NoDup. vm_compute. reflexivity. Qed.

(** C9. Seeded with the 54 doubly stochastic matrices (in any order, with
    or without repetitions) and any cap of at least 54, [generate_group]
    returns exactly the 54-element set. *)
Theorem closure_of_the_54_set_is_itself
    (set_order : list Tuple9 -> list Tuple9)
    (seeds : list Matrix3) (cap : Z) :
  (forall s, Permutation (set_order s) s) ->
  (forall M, In M seeds <-> In M ops_54) ->
  54 <= cap ->
  exists grp,
    generate_group set_order seeds cap = Some grp /\
    Permutation grp set_54 /\ len grp = 54.
Proof.
  intros Hperm Hseeds Hcap.
  assert (Hinit : forall t, In t (group (initial seeds)) <-> In t set_54).
  { intros t. rewrite initial_group_In. unfold set_54. split.
    - intros [-> | Ht].
      + apply In_key. apply identity_in_ops_54.
      + apply in_map_iff in Ht. destruct Ht as [M [<- HM]].
        apply In_key. now apply Hseeds.
    - intros Ht. right. apply in_map_iff in Ht. destruct Ht as [M [<- HM]].
      apply In_key. now apply Hseeds. }
  destruct (bfs_drain set_order cap Hperm (closure_fuel seeds cap) (initial seeds))
    as [st [Hrun Hg]].
  - unfold closure_fuel, initial. simpl. lia.
  - intros current e Hc He. simpl in Hc. apply Hseeds in Hc.
    apply Hinit in He. unfold set_54 in He. apply in_map_iff in He.
    destruct He as [E [<- HE]]. rewrite tuple_to_matrix_to_tuple.
    split; apply Hinit; apply In_key; now apply ops_54_closed.
  - exists (group st). unfold generate_group, generate_group_run.
    rewrite Hrun. simpl. split; [reflexivity |].
    assert (Hp : Permutation (group st) set_54).
    { rewrite Hg. apply NoDup_Permutation;
        [apply initial_group_NoDup | apply set_54_distinct | exact Hinit]. }
    split; [assumption |].
    unfold len. rewrite (Permutation_length Hp). vm_compute. reflexivity.
Qed.

Lemma closure_of_the_54_set_is_itself_witness :
  exists grp,
    generate_group insertion_order ops_54 54 = Some grp /\
    Permutation grp set_54 /\ len grp = 54.
Proof.
  apply (closure_of_the_54_set_is_itself insertion_order ops_54 54).
  - intros s. apply Permutation_refl.
  - intros M. reflexivity.
  - lia.
Defined.

(** ** What the loader keeps and what it skips *)









(** ** What [verify_minimality] decides *)

Lemma select_operators_split (operators : list Matrix3) (indices : list Z) :
  forall generators (i : nat),
    select_operators operators indices = Some generators ->
    select_operators operators (firstn i indices) = Some (firstn i generators) /\
    select_operators operators (skipn i indices) = Some (skipn i generators).
Proof.
  induction indices as [| j rest IH]; intros generators i Hsel.
  - injection Hsel as <-. destruct i; simpl; auto.
  - simpl in Hsel. unfold bind in Hsel.
    destruct (py_index operators j) as [M |] eqn:Hj; [| discriminate].
    destruct (select_operators operators rest) as [Ms |] eqn:Hrest;
      [| discriminate].
    injection Hsel as <-. destruct i as [| i].
    + simpl. unfold bind. now rewrite Hj, Hrest.
    + destruct (IH Ms i eq_refl) as [Hf Hs]. simpl. unfold bind.
      now rewrite Hj, Hf, Hs.
Qed.

Lemma select_operators_app (operators : list Matrix3) (xs ys : list Z) :
  forall Ms Ns,
    select_operators operators xs = Some Ms ->
    select_operators operators ys = Some Ns ->
    select_operators operators (xs ++ ys) = Some (Ms ++ Ns).
Proof.
  induction xs as [| j rest IH]; intros Ms Ns Hx Hy.
  - injection Hx as <-. assumption.
  - simpl in Hx. unfold bind in Hx.
    destruct (py_index operators j) as [M |] eqn:Hj; [| discriminate].
    destruct (select_operators operators rest) as [Ms' |] eqn:Hrest;
      [| discriminate].
    injection Hx as <-. simpl. unfold bind.
    now rewrite Hj, (IH Ms' Ns eq_refl Hy).
Qed.

Lemma select_operators_remove (operators : list Matrix3) (indices : list Z)
    (generators : list Matrix3) (i : nat) :
  select_operators operators indices = Some generators ->
  select_operators operators (remove_position i indices)
    = Some (firstn i generators ++ skipn (S i) generators).
Proof.
  intros Hsel. unfold remove_position. apply select_operators_app.
  - apply (select_operators_split operators indices generators i Hsel).
  - apply (select_operators_split operators indices generators (S i) Hsel).
Qed.

Section InvestigatorFacts.

Variable set_order : list Tuple9 -> list Tuple9.
Variable operators : list Matrix3.

Lemma check_removals_true (generating_tuple : list Z) (positions : list nat) :
  check_removals set_order operators generating_tuple positions = Some true <->
  forall i, In i positions ->
    exists n, closure_size set_order operators
                (remove_position i generating_tuple) = Some n /\ n <> 432.
Proof.
  induction positions as [| i rest IH]; simpl.
  - split; [intros _ i [] | reflexivity].
  - unfold bind.
    destruct (closure_size set_order operators
                (remove_position i generating_tuple)) as [n |] eqn:Hn.
    + destruct (n =? 432) eqn:Heq.
      * apply Z.eqb_eq in Heq. split; [intros H; discriminate H |].
        intros H. destruct (H i (or_introl eq_refl)) as [m [Hm1 Hm2]].
        congruence.
      * apply Z.eqb_neq in Heq. rewrite IH. split.
        -- intros H j [<- | Hj]; [now exists n | now apply H].
        -- intros H j Hj. apply H. now right.
    + split; [intros H; discriminate H |].
      intros H. destruct (H i (or_introl eq_refl)) as [m [Hm1 _]].
      congruence.
Qed.

(** [verify_minimality] answers [True] on a tuple of length other than 1
    exactly when the closure of the tuple has 432 elements and no closure
    of a tuple with one position removed has 432 elements. *)
Lemma verify_minimality_true (generating_tuple : list Z) :
  List.length generating_tuple <> 1%nat ->
  (verify_minimality set_order operators generating_tuple = Some true <->
   closure_size set_order operators generating_tuple = Some 432 /\
   forall i, (i < List.length generating_tuple)%nat ->
     exists n, closure_size set_order operators
                 (remove_position i generating_tuple) = Some n /\ n <> 432).
Proof.
  intros Hk. unfold verify_minimality.
  destruct (Nat.eqb_spec (List.length generating_tuple) 1) as [|_];
    [contradiction |].
  unfold bind.
  destruct (closure_size set_order operators generating_tuple) as [n |];
    [| split; [intros H; discriminate H | intros [H _]; discriminate H]].
  destruct (n =? 432) eqn:Heq; simpl.
  - apply Z.eqb_eq in Heq. subst n. rewrite check_removals_true. split.
    + intros H. split; [reflexivity |]. intros i Hi. apply H.
      apply in_seq. lia.
    + intros [_ H] i Hi. apply H. apply in_seq in Hi. lia.
  - apply Z.eqb_neq in Heq. split; [intros H; discriminate H |].
    intros [H _]. congruence.
Qed.

End InvestigatorFacts.

(** ** Removing a generator can push the closure past the cap *)

Lemma initial_group_length (generators : list Matrix3) :
  NoDup (matrix_to_tuple identity :: map matrix_to_tuple generators) ->
  List.length (group (initial generators)) = S (List.length generators).
Proof.
  intros Hnd.
  rewrite (Permutation_length
             (l' := matrix_to_tuple identity :: map matrix_to_tuple generators)).
  - simpl. now rewrite length_map.
  - apply NoDup_Permutation; [apply initial_group_NoDup | assumption |].
    intros t. rewrite initial_group_In. simpl. intuition.
Qed.

(** When the group is one element short of the cap and the first generator
    has two different new products, the first pass leaves the group above
    the cap, whatever the order of the walk. *)
Lemma first_pass_overshoots (set_order : list Tuple9 -> list Tuple9)
    (generators : list Matrix3) (g a b : Matrix3) (rest : list Matrix3)
    (cap : Z) :
  (forall s, Permutation (set_order s) s) ->
  generators = g :: rest ->
  In a generators -> In b generators ->
  NoDup (matrix_to_tuple identity :: map matrix_to_tuple generators) ->
  Z.of_nat (List.length generators) + 2 = cap ->
  escapes (matrix_to_tuple identity :: map matrix_to_tuple generators) g a b
    = true ->
  exists grp, generate_group set_order generators cap = Some grp /\
              cap < len grp.
Proof.
  intros Hperm Hgens Ha Hb Hnd Hcap Hesc.
  unfold escapes in Hesc.
  rewrite !andb_true_iff, !negb_true_iff, !tuple_mem_false in Hesc.
  destruct Hesc as [[Hab Hka] Hkb].
  assert (Hneq : matrix_to_tuple (matrix_mult_mod3 g a)
                 <> matrix_to_tuple (matrix_mult_mod3 g b)).
  { intros Heq. apply tuple_eqb_spec in Heq. congruence. }
  set (G0 := group (initial generators)).
  assert (HG0 : forall t, In t G0 <->
            In t (matrix_to_tuple identity :: map matrix_to_tuple generators)).
  { intros t. unfold G0. rewrite initial_group_In. simpl. intuition. }
  pose proof (initial_group_length generators Hnd) as Hlen. fold G0 in Hlen.
  destruct (expand_spec (insert_products cap) (insert_products_spec cap) g
              (set_order G0) G0 rest)
    as (added & newq & Heq & _ & Hnd' & _ & _ & Hfst).
  assert (Hin : forall x, In x generators ->
            ~ In (matrix_to_tuple (matrix_mult_mod3 g x)) G0 ->
            In (matrix_to_tuple (matrix_mult_mod3 g x)) added).
  { intros x Hx Hnot.
    assert (He : In (matrix_to_tuple x) (set_order G0)).
    { apply (Permutation_in _ (Permutation_sym (Hperm G0))).
      apply HG0. right. now apply in_map. }
    apply Hfst in He. rewrite tuple_to_matrix_to_tuple in He.
    apply in_app_or in He. tauto. }
  assert (Hadded : (2 <= List.length added)%nat).
  { change 2%nat with (List.length [matrix_to_tuple (matrix_mult_mod3 g a);
                                    matrix_to_tuple (matrix_mult_mod3 g b)]).
    apply NoDup_incl_length.
    - constructor; [simpl; intuition | repeat constructor; simpl; tauto].
    - intros x [<- | [<- | []]]; apply Hin; auto; now rewrite HG0. }
  exists (G0 ++ added). split.
  - unfold generate_group, generate_group_run.
    replace (closure_fuel generators cap)
      with (S (S (List.length rest + 3 * Z.to_nat cap)))
      by (unfold closure_fuel; rewrite Hgens; simpl; lia).
    erewrite bfs_one_pass with (current := g) (rest := rest);
      [reflexivity | | | reflexivity | exact Heq | ].
    + simpl. assumption.
    + apply Z.ltb_lt. fold G0. unfold len. lia.
    + apply Z.ltb_ge. unfold len. rewrite length_app. lia.
  - unfold len. rewrite length_app. lia.
Qed.

Lemma split_at {A : Type} (l : list A) (i : nat) :
  (i < List.length l)%nat ->
  exists x, l = firstn i l ++ x :: skipn (S i) l.
Proof.
  revert i. induction l as [| y l IH]; intros i Hi; simpl in Hi; [lia |].
  destruct i as [| i].
  - now exists y.
  - destruct (IH i) as [x Hx]; [lia |]. exists x.
    change (y :: l = y :: (firstn i l ++ x :: skipn (S i) l)). now f_equal.
Qed.

Section Pool.

Variable set_order : list Tuple9 -> list Tuple9.
Variables p0 p1 p2 p3 : Matrix3.
Variable others : list Matrix3.

Let pool : list Matrix3 := p0 :: p1 :: p2 :: p3 :: others.
Let keys : list Tuple9 :=
  matrix_to_tuple identity :: map matrix_to_tuple pool.

Hypothesis set_order_perm : forall s, Permutation (set_order s) s.
Hypothesis pool_size : List.length pool = 431%nat.
Hypothesis pool_distinct : NoDup keys.
Hypothesis escapes_012 : escapes keys p0 p1 p2 = true.
Hypothesis escapes_013 : escapes keys p0 p1 p3 = true.
Hypothesis escapes_023 : escapes keys p0 p2 p3 = true.
Hypothesis escapes_123 : escapes keys p1 p2 p3 = true.

Lemma escapes_subset (s s' : list Tuple9) (g a b : Matrix3) :
  incl s' s -> escapes s g a b = true -> escapes s' g a b = true.
Proof.
  unfold escapes. intros Hincl.
  rewrite !andb_true_iff, !negb_true_iff, !tuple_mem_false.
  intros [[H1 H2] H3]. repeat split; auto.
Qed.

Lemma removal_overshoots (i : nat) :
  (i < 431)%nat ->
  exists grp,
    generate_group set_order (firstn i pool ++ skipn (S i) pool) 432
      = Some grp /\ 432 < len grp.
Proof.
  intros Hi.
  destruct (split_at pool i) as [x Hx]; [lia |].
  set (gens := firstn i pool ++ skipn (S i) pool) in *.
  assert (Hlen : List.length gens = 430%nat).
  { pose proof (f_equal (@List.length Matrix3) Hx) as H.
    rewrite length_app in H. cbn [List.length] in H.
    unfold gens. rewrite length_app. lia. }
  assert (Hincl : incl (matrix_to_tuple identity :: map matrix_to_tuple gens)
                       keys).
  { intros t [<- | Ht]; [now left | right].
    apply in_map_iff in Ht. destruct Ht as [M [<- HM]]. apply in_map.
    rewrite Hx. unfold gens in HM. apply in_app_or in HM.
    apply in_or_app. simpl. tauto. }
  assert (Hnd : NoDup (matrix_to_tuple identity :: map matrix_to_tuple gens)).
  { unfold keys in pool_distinct. rewrite Hx in pool_distinct.
    rewrite map_app in pool_distinct. simpl in pool_distinct.
    rewrite app_comm_cons in pool_distinct.
    apply NoDup_remove_1 in pool_distinct.
    unfold gens. now rewrite map_app. }
  assert (Hcap : Z.of_nat (List.length gens) + 2 = 432) by lia.
  destruct i as [| [| [| i]]]; unfold pool in gens; simpl in gens.
  - apply (first_pass_overshoots set_order gens p1 p2 p3 (p2 :: p3 :: others));
      auto; try (unfold gens; simpl; tauto).
    now apply (escapes_subset keys).
  - apply (first_pass_overshoots set_order gens p0 p2 p3 (p2 :: p3 :: others));
      auto; try (unfold gens; simpl; tauto).
    now apply (escapes_subset keys).
  - apply (first_pass_overshoots set_order gens p0 p1 p3 (p1 :: p3 :: others));
      auto; try (unfold gens; simpl; tauto).
    now apply (escapes_subset keys).
  - apply (first_pass_overshoots set_order gens p0 p1 p2
             (p1 :: p2 :: firstn i (p3 :: others) ++ skipn (S i) (p3 :: others)));
      auto; try (unfold gens; simpl; tauto).
    now apply (escapes_subset keys).
Qed.

End Pool.

(** ** A tuple that [verify_minimality] accepts although its reductions
       overshoot *)

Lemma pool_431_shape :
  pool_431 = mk3 0 0 1  0 1 0  1 0 0 :: mk3 0 0 1  0 1 0  1 0 1
          :: mk3 0 0 1  0 1 0  1 0 2 :: mk3 0 0 1  0 1 0  1 1 0
          :: pool_431_rest.
Proof. vm_compute. reflexivity. Qed.

Lemma select_pool_431 : select_operators pool_431 tuple_431 = Some pool_431.
Proof. vm_compute. reflexivity. Qed.

Lemma pool_431_keys_distinct :
  NoDup (matrix_to_tuple identity :: map matrix_to_tuple pool_431).
Proof. apply distinct_b_NoDup. vm_compute. reflexivity. Qed.

(** Whatever the order in which the set is walked: the 431 operators and
    the identity fill the cap, so the loop never runs on the full tuple;
    every tuple with one position removed starts one element short of the
    cap and its first pass adds at least two. *)
Lemma verify_minimality_overshoot_any_order
    (set_order : list Tuple9 -> list Tuple9) :
  (forall s, Permutation (set_order s) s) ->
  verify_minimality set_order pool_431 tuple_431 = Some true /\
  closure_size set_order pool_431 tuple_431 = Some 432 /\
  forall i, (i < 431)%nat ->
    exists n, closure_size set_order pool_431 (remove_position i tuple_431)
                = Some n /\ 432 < n.
Proof.
  intros Hperm.
  assert (Hfull : closure_size set_order pool_431 tuple_431 = Some 432).
  { unfold closure_size. rewrite select_pool_431. unfold bind.
    unfold generate_group, generate_group_run.
    change (closure_fuel pool_431 432)
      with (S (Nat.pred (closure_fuel pool_431 432))).
    rewrite bfs_stops by (vm_compute; reflexivity).
    vm_compute. reflexivity. }
  assert (Hred : forall i, (i < 431)%nat ->
            exists n, closure_size set_order pool_431
                        (remove_position i tuple_431) = Some n /\ 432 < n).
  { intros i Hi. unfold closure_size.
    rewrite (select_operators_remove _ _ _ i select_pool_431). unfold bind.
    rewrite pool_431_shape.
    destruct (removal_overshoots set_order
                (mk3 0 0 1  0 1 0  1 0 0) (mk3 0 0 1  0 1 0  1 0 1)
                (mk3 0 0 1  0 1 0  1 0 2) (mk3 0 0 1  0 1 0  1 1 0)
                pool_431_rest Hperm) with (i := i) as [grp [Hgrp Hlen]];
      try (vm_compute; reflexivity); try assumption.
    - rewrite <- pool_431_shape. apply pool_431_keys_distinct.
    - rewrite Hgrp. exists (len grp). split; [reflexivity | exact Hlen]. }
  split; [| split; assumption].
  apply verify_minimality_true.
  - unfold tuple_431. rewrite length_map, length_seq. lia.
  - split; [assumption |]. intros i Hi.
    unfold tuple_431 in Hi. rewrite length_map, length_seq in Hi.
    destruct (Hred i Hi) as [n [Hn Hgt]]. exists n. split; [assumption | lia].
Qed.

(** C6 (failing input). With a pool of 431 invertible matrices and the tuple
    of all its indices, [verify_minimality] answers [True]: the full tuple
    gives exactly 432 elements, while the tuple without its first index
    gives a set of 861 elements, which is not below 432. *)
Theorem verify_minimality_accepts_overshoot :
  verify_minimality insertion_order pool_431 tuple_431 = Some true /\
  closure_size insertion_order pool_431 tuple_431 = Some 432 /\
  closure_size insertion_order pool_431 (remove_position 0 tuple_431)
    = Some 861.
Proof.
  destruct (verify_minimality_overshoot_any_order insertion_order)
    as [Hv [Hfull _]].
  - intros s. apply Permutation_refl.
  - split; [assumption |]. split; [assumption |]. vm_compute. reflexivity.
Qed.

(** ** Row sums, column sums and determinants under multiplication *)

Lemma stochastic_sum_eqm (s : Z) : (s mod 3 =? 1) = true <-> eqm 3 s 1.
Proof. rewrite Z.eqb_eq. unfold eqm. reflexivity. Qed.

Lemma check_conservation_eqm (M : Matrix3) :
  check_conservation M = true <->
  eqm 3 (m00 M + m01 M + m02 M) 1 /\ eqm 3 (m10 M + m11 M + m12 M) 1 /\
  eqm 3 (m20 M + m21 M + m22 M) 1.
Proof.
  unfold check_conservation, row_sums. simpl forallb.
  rewrite !andb_true_iff, !stochastic_sum_eqm. tauto.
Qed.

Lemma sum_of_products_eqm (a b c s t u : Z) :
  eqm 3 (a + b + c) 1 -> eqm 3 s 1 -> eqm 3 t 1 -> eqm 3 u 1 ->
  eqm 3 (a * s + b * t + c * u) 1.
Proof.
  intros Ha Hs Ht Hu.
  apply (eqm_trans 3 _ (a * 1 + b * 1 + c * 1)).
  - repeat apply Zplus_eqm; apply Zmult_eqm; (apply eqm_refl || assumption).
  - now replace (a * 1 + b * 1 + c * 1) with (a + b + c) by ring.
Qed.

Lemma sum_mod3_eqm (x y z : Z) :
  eqm 3 (x mod 3 + y mod 3 + z mod 3) (x + y + z).
Proof. repeat apply Zplus_eqm; apply Zmod_eqm. Qed.

(** Row sums 1 (mod 3) survive multiplication mod 3, for all integer
    matrices. *)
Lemma conservation_mult (A B : Matrix3) :
  check_conservation A = true -> check_conservation B = true ->
  check_conservation (matrix_mult_mod3 A B) = true.
Proof.
  rewrite !check_conservation_eqm. intros (A0 & A1 & A2) (B0 & B1 & B2).
  unfold matrix_mult_mod3, mod3, matmul. simpl.
  repeat split; (eapply eqm_trans; [apply sum_mod3_eqm |]).
  - match goal with |- eqm 3 ?e 1 =>
      replace e with (m00 A * (m00 B + m01 B + m02 B)
                      + m01 A * (m10 B + m11 B + m12 B)
                      + m02 A * (m20 B + m21 B + m22 B)) by ring end.
    now apply sum_of_products_eqm.
  - match goal with |- eqm 3 ?e 1 =>
      replace e with (m10 A * (m00 B + m01 B + m02 B)
                      + m11 A * (m10 B + m11 B + m12 B)
                      + m12 A * (m20 B + m21 B + m22 B)) by ring end.
    now apply sum_of_products_eqm.
  - match goal with |- eqm 3 ?e 1 =>
      replace e with (m20 A * (m00 B + m01 B + m02 B)
                      + m21 A * (m10 B + m11 B + m12 B)
                      + m22 A * (m20 B + m21 B + m22 B)) by ring end.
    now apply sum_of_products_eqm.
Qed.

Lemma det_mod3_eqm (M : Matrix3) : eqm 3 (det (mod3 M)) (det M).
Proof.
  unfold det, mod3. cbn [m00 m01 m02 m10 m11 m12 m20 m21 m22].
  repeat (apply Zminus_eqm || apply Zmult_eqm || apply Zplus_eqm);
    apply Zmod_eqm.
Qed.

Lemma det_matmul (A B : Matrix3) : det (matmul A B) = det A * det B.
Proof.
  unfold det, matmul. cbn [m00 m01 m02 m10 m11 m12 m20 m21 m22]. ring.
Qed.

(** The determinant mod 3 of a product is the product of the determinants
    mod 3, for all integer matrices. *)
Lemma det_mod3_mult (A B : Matrix3) :
  det_mod3 (matrix_mult_mod3 A B) = (det_mod3 A * det_mod3 B) mod 3.
Proof.
  unfold det_mod3, matrix_mult_mod3.
  rewrite (det_mod3_eqm (matmul A B)), det_matmul.
  apply Zmult_mod.
Qed.

Lemma invertible_mult (A B : Matrix3) :
  det_mod3 A <> 0 -> det_mod3 B <> 0 -> det_mod3 (matrix_mult_mod3 A B) <> 0.
Proof.
  rewrite det_mod3_mult. unfold det_mod3.
  pose proof (Z.mod_pos_bound (det A) 3 ltac:(lia)).
  pose proof (Z.mod_pos_bound (det B) 3 ltac:(lia)).
  intros HA HB.
  assert (det A mod 3 = 1 \/ det A mod 3 = 2) as [-> | ->] by lia;
  assert (det B mod 3 = 1 \/ det B mod 3 = 2) as [-> | ->] by lia;
  discriminate.
Qed.

Lemma mult_over_F3 (A B : Matrix3) : over_F3 (matrix_mult_mod3 A B) = true.
Proof.
  unfold over_F3, matrix_mult_mod3, mod3, entries, is_field_element.
  cbn [forallb m00 m01 m02 m10 m11 m12 m20 m21 m22].
  rewrite !andb_true_iff, !Z.leb_le, !Z.ltb_lt.
  repeat split; apply Z.mod_pos_bound; lia.
Qed.

Lemma check_row_and_col_eqm (M : Matrix3) :
  check_row_and_col M = true <->
  check_conservation M = true /\
  eqm 3 (m00 M + m10 M + m20 M) 1 /\ eqm 3 (m01 M + m11 M + m21 M) 1 /\
  eqm 3 (m02 M + m12 M + m22 M) 1.
Proof.
  unfold check_row_and_col, check_conservation, col_sums. simpl forallb.
  rewrite !andb_true_iff, !stochastic_sum_eqm. tauto.
Qed.

Lemma sum_of_products_eqm_l (a b c s t u : Z) :
  eqm 3 (a + b + c) 1 -> eqm 3 s 1 -> eqm 3 t 1 -> eqm 3 u 1 ->
  eqm 3 (s * a + t * b + u * c) 1.
Proof.
  intros Ha Hs Ht Hu.
  replace (s * a + t * b + u * c) with (a * s + b * t + c * u) by ring.
  now apply sum_of_products_eqm.
Qed.

(** X2. [check_row_and_col] composes with [matrix_mult_mod3]: the product
    mod 3 of two integer matrices whose row sums and column sums are all 1
    (mod 3) has again all row sums and column sums 1 (mod 3). *)
Theorem doubly_stochastic_product (A B : Matrix3) :
  check_row_and_col A = true -> check_row_and_col B = true ->
  check_row_and_col (matrix_mult_mod3 A B) = true.
Proof.
  rewrite !check_row_and_col_eqm.
  intros (HA & A0 & A1 & A2) (HB & B0 & B1 & B2).
  split; [now apply conservation_mult |].
  unfold matrix_mult_mod3, mod3, matmul.
  cbn [m00 m01 m02 m10 m11 m12 m20 m21 m22].
  repeat split; (eapply eqm_trans; [apply sum_mod3_eqm |]).
  - match goal with |- eqm 3 ?e 1 =>
      replace e with ((m00 A + m10 A + m20 A) * m00 B
                      + (m01 A + m11 A + m21 A) * m10 B
                      + (m02 A + m12 A + m22 A) * m20 B) by ring end.
    now apply sum_of_products_eqm_l.
  - match goal with |- eqm 3 ?e 1 =>
      replace e with ((m00 A + m10 A + m20 A) * m01 B
                      + (m01 A + m11 A + m21 A) * m11 B
                      + (m02 A + m12 A + m22 A) * m21 B) by ring end.
    now apply sum_of_products_eqm_l.
  - match goal with |- eqm 3 ?e 1 =>
      replace e with ((m00 A + m10 A + m20 A) * m02 B
                      + (m01 A + m11 A + m21 A) * m12 B
                      + (m02 A + m12 A + m22 A) * m22 B) by ring end.
    now apply sum_of_products_eqm_l.
Qed.

Lemma doubly_stochastic_product_witness :
  check_row_and_col (matrix_mult_mod3 cycle3 cycle3_squared) = true.
Proof.
  apply (doubly_stochastic_product cycle3 cycle3_squared); reflexivity.
Defined.

(** X1. [check_conservation] composes with [matrix_mult_mod3]: the product
    mod 3 of two integer matrices whose row sums are all 1 (mod 3) has again
    all row sums 1 (mod 3). *)
Theorem row_stochastic_product (A B : Matrix3) :
  check_conservation A = true -> check_conservation B = true ->
  check_conservation (matrix_mult_mod3 A B) = true.
Proof. apply conservation_mult. Qed.

Lemma row_stochastic_product_witness :
  check_conservation
    (matrix_mult_mod3 (mk3 0 1 0  0 2 2  1 0 0) (mk3 0 1 0  0 2 2  1 2 1))
  = true.
Proof.
  apply (row_stochastic_product
           (mk3 0 1 0  0 2 2  1 0 0) (mk3 0 1 0  0 2 2  1 2 1)); reflexivity.
Defined.

(** X3. The test [det % 3 != 0] of [generate_gl3_f3] composes with
    [matrix_mult_mod3]: for all integer matrices the determinant mod 3 of
    the product mod 3 is the product of the two determinants mod 3, and the
    product has all its entries in {0, 1, 2}. *)
Theorem determinant_of_product_mod3 (A B : Matrix3) :
  det_mod3 (matrix_mult_mod3 A B) = (det_mod3 A * det_mod3 B) mod 3 /\
  over_F3 (matrix_mult_mod3 A B) = true.
Proof. split; [apply det_mod3_mult | apply mult_over_F3]. Qed.

(** ** The closure stays inside every closed family that holds the seeds *)

Section WithinFamily.

Variable set_order : list Tuple9 -> list Tuple9.
Variable insert :
  list Matrix3 -> list Tuple9 -> list Matrix3 -> list Tuple9 * list Matrix3.
Variable max_size : Z.
Variable F : Matrix3 -> Prop.

Hypothesis set_order_perm : forall s, Permutation (set_order s) s.
Hypothesis insert_ok : insert_spec insert.
Hypothesis F_closed : closed_family F.

Lemma products_in_family (current : Matrix3) (snapshot : list Tuple9) :
  F current -> (forall e, In e snapshot -> F (tuple_to_matrix e)) ->
  forall M, In M (products_of current snapshot) -> F M.
Proof.
  intros Hc Hs M HM. unfold products_of in HM. apply in_flat_map in HM.
  destruct HM as [e [He HM]]. destruct F_closed as [_ Hmul].
  simpl in HM. destruct HM as [<- | [<- | []]]; apply Hmul; auto.
Qed.

Lemma bfs_within_family (fuel : nat) (st st' : Closure) :
  bfs set_order insert fuel max_size st = Some st' ->
  (forall t, In t (group st) -> F (tuple_to_matrix t)) ->
  (forall M, In M (to_process st) -> F M) ->
  (forall t, In t (group st') -> F (tuple_to_matrix t)) /\
  incl (group st) (group st').
Proof.
  intros Hrun Hg Hq.
  apply (bfs_rule set_order insert max_size
           (fun s => (forall t, In t (group s) -> F (tuple_to_matrix t)) /\
                     (forall M, In M (to_process s) -> F M) /\
                     incl (group st) (group s))) in Hrun.
  - destruct Hrun as [(H1 & _ & H3) _]. now split.
  - intros s current rest Hs _ _ (H1 & H2 & H3). simpl.
    repeat split; auto. intros M HM. apply H2. rewrite Hs. now right.
  - intros s current rest grp' queue' Hs _ _ He (H1 & H2 & H3). simpl.
    destruct (expand_spec insert insert_ok current (set_order (group s))
                (group s) rest)
      as (added & newq & Heq & _ & _ & Hk & Hn & _).
    rewrite Heq in He. injection He as <- <-.
    assert (Hprod : forall M, In M (products_of current (set_order (group s)))
                              -> F M).
    { apply products_in_family.
      - apply H2. rewrite Hs. now left.
      - intros e He. apply H1.
        now apply (Permutation_in _ (set_order_perm (group s))). }
    repeat split.
    + intros t Ht. apply in_app_or in Ht. destruct Ht as [Ht | Ht]; auto.
      apply Hk in Ht. apply in_map_iff in Ht. destruct Ht as [M [<- HM]].
      rewrite tuple_to_matrix_to_tuple. now apply Hprod.
    + intros M HM. apply in_app_or in HM. destruct HM as [HM | HM].
      * apply H2. rewrite Hs. now right.
      * apply Hprod. now apply Hn.
    + intros t Ht. apply in_or_app. left. now apply H3.
  - repeat split; auto. apply incl_refl.
Qed.

End WithinFamily.

Lemma initial_within_family (F : Matrix3 -> Prop) (generators : list Matrix3) :
  F identity -> (forall M, In M generators -> F M) ->
  forall t, In t (group (initial generators)) -> F (tuple_to_matrix t).
Proof.
  intros HI Hg t Ht. apply initial_group_In in Ht. destruct Ht as [-> | Ht].
  - now rewrite tuple_to_matrix_to_tuple.
  - apply in_map_iff in Ht. destruct Ht as [M [<- HM]].
    rewrite tuple_to_matrix_to_tuple. now apply Hg.
Qed.

Lemma generate_group_within_family (set_order : list Tuple9 -> list Tuple9)
    (F : Matrix3 -> Prop) (generators : list Matrix3) (max_size : Z)
    (grp : list Tuple9) :
  (forall s, Permutation (set_order s) s) ->
  closed_family F -> (forall M, In M generators -> F M) ->
  generate_group set_order generators max_size = Some grp ->
  (forall t, In t grp -> F (tuple_to_matrix t)) /\
  In (matrix_to_tuple identity) grp /\
  (forall M, In M generators -> In (matrix_to_tuple M) grp) /\
  NoDup grp.
Proof.
  intros Hperm HF Hgens Hrun.
  apply generate_group_some in Hrun. destruct Hrun as [st [Hrun <-]].
  pose proof (generate_group_run_NoDup set_order generators max_size st Hrun)
    as Hnd.
  unfold generate_group_run in Hrun.
  apply (bfs_within_family set_order (insert_products max_size) max_size F
           Hperm (insert_products_spec max_size) HF) in Hrun.
  - destruct Hrun as [HF' Hincl]. repeat split; auto.
    + apply Hincl. apply initial_group_In. now left.
    + intros M HM. apply Hincl. apply initial_group_In. right.
      now apply in_map.
  - apply initial_within_family; [apply HF | assumption].
  - exact Hgens.
Qed.

Lemma generate_group_from_pair_within_family
    (set_order : list Tuple9 -> list Tuple9)
    (F : Matrix3 -> Prop) (M1 M2 : Matrix3) (max_size : Z)
    (grp : list Tuple9) :
  (forall s, Permutation (set_order s) s) ->
  closed_family F -> F M1 -> F M2 ->
  generate_group_from_pair set_order M1 M2 max_size = Some grp ->
  (forall t, In t grp -> F (tuple_to_matrix t)) /\
  In (matrix_to_tuple identity) grp /\
  In (matrix_to_tuple M1) grp /\ In (matrix_to_tuple M2) grp.
Proof.
  intros Hperm HF H1 H2 Hrun. unfold generate_group_from_pair in Hrun.
  destruct (bfs set_order insert_products_pair (closure_fuel [M1; M2] max_size)
              max_size (initial [M1; M2])) as [st |] eqn:Hbfs; [| discriminate].
  injection Hrun as <-.
  assert (Hgens : forall M, In M [M1; M2] -> F M)
    by (intros M [<- | [<- | []]]; assumption).
  apply (bfs_within_family set_order insert_products_pair max_size F
           Hperm insert_products_pair_spec HF) in Hbfs.
  - destruct Hbfs as [HF' Hincl]. repeat split; auto;
      apply Hincl; apply initial_group_In; simpl; auto.
  - apply initial_within_family; [apply HF | assumption].
  - exact Hgens.
Qed.

(** ** Seeds from the 432-set *)

Lemma in_432_spec (M : Matrix3) : in_432 M <-> In M ops_432.
Proof.
  unfold in_432, ops_432. rewrite filter_In, generate_gl3_f3_spec. tauto.
Qed.

Lemma in_432_closed : closed_family in_432.
Proof.
  split.
  - repeat split. discriminate.
  - intros A B (_ & HdA & HcA) (_ & HdB & HcB). repeat split.
    + apply mult_over_F3.
    + now apply invertible_mult.
    + now apply conservation_mult.
Qed.

Lemma ops_432_length : List.length (map matrix_to_tuple ops_432) = 432%nat.
Proof. vm_compute. reflexivity. Qed.

(** X4. The 432 matrices kept by [check_conservation] are closed under
    [matrix_mult_mod3], and the identity is one of them. *)
Theorem the_432_set_is_closed (A B : Matrix3) :
  In A ops_432 -> In B ops_432 ->
  In (matrix_mult_mod3 A B) ops_432 /\ In identity ops_432.
Proof.
  rewrite <- !in_432_spec. intros HA HB.
  destruct in_432_closed as [HI Hmul]. split; [now apply Hmul | exact HI].
Qed.

Lemma the_432_set_is_closed_witness :
  In (matrix_mult_mod3 cycle3 cycle3_squared) ops_432 /\ In identity ops_432.
Proof.
  apply (the_432_set_is_closed cycle3 cycle3_squared);
    apply In_key; apply tuple_mem_spec; vm_compute; reflexivity.
Defined.



Lemma generate_group_of_432_seeds (set_order : list Tuple9 -> list Tuple9)
    (generators : list Matrix3) (max_size : Z) :
  (forall s, Permutation (set_order s) s) ->
  (forall M, In M generators -> In M ops_432) ->
  exists grp,
    generate_group set_order generators max_size = Some grp /\
    len grp <= 432 /\ NoDup grp /\
    (forall t, In t grp -> In (tuple_to_matrix t) ops_432).
Proof.
  intros Hperm Hgens.
  destruct (generate_group_run_total set_order Hperm generators max_size)
    as [st Hrun].
  assert (Hgrp : generate_group set_order generators max_size = Some (group st))
    by (unfold generate_group; now rewrite Hrun).
  destruct (generate_group_within_family set_order in_432 generators max_size
              (group st) Hperm in_432_closed) as (HF & _ & _ & Hnd); auto.
  { intros M HM. apply in_432_spec. now apply Hgens. }
  exists (group st). repeat split; auto.
  - assert (Hn : (List.length (group st) <= 432)%nat).
    { rewrite <- ops_432_length. apply NoDup_incl_length; [assumption |].
      intros t Ht. rewrite <- (matrix_to_tuple_to_matrix t). apply in_map.
      apply in_432_spec. now apply HF. }
    unfold len. lia.
  - intros t Ht. apply in_432_spec. now apply HF.
Qed.

Lemma py_index_In {A : Type} (xs : list A) (i : Z) (x : A) :
  py_index xs i = Some x -> In x xs.
Proof.
  unfold py_index. intros H.
  destruct ((0 <=? i) && (i <? len xs)); [now apply nth_error_In in H |].
  destruct ((- len xs <=? i) && (i <? 0)); [now apply nth_error_In in H |].
  discriminate.
Qed.

Lemma select_operators_incl (operators : list Matrix3) (indices : list Z) :
  forall generators,
    select_operators operators indices = Some generators ->
    incl generators operators.
Proof.
  induction indices as [| j rest IH]; intros generators Hsel.
  - injection Hsel as <-. intros x [].
  - simpl in Hsel. unfold bind in Hsel.
    destruct (py_index operators j) as [M |] eqn:Hj; [| discriminate].
    destruct (select_operators operators rest) as [Ms |]; [| discriminate].
    injection Hsel as <-. intros x [<- | Hx].
    + now apply py_index_In in Hj.
    + now apply (IH Ms).
Qed.

Section On432Pool.

Variable set_order : list Tuple9 -> list Tuple9.
Variable operators : list Matrix3.

Hypothesis set_order_perm : forall s, Permutation (set_order s) s.
Hypothesis pool_in_432 : forall M, In M operators -> In M ops_432.

Lemma closure_size_on_432_pool (indices : list Z) (generators : list Matrix3) :
  select_operators operators indices = Some generators ->
  exists n, closure_size set_order operators indices = Some n /\ n <= 432.
Proof.
  intros Hsel. unfold closure_size. rewrite Hsel. unfold bind.
  destruct (generate_group_of_432_seeds set_order generators 432
              set_order_perm) as (grp & Hgrp & Hlen & _).
  - intros M HM. apply pool_in_432.
    now apply (select_operators_incl operators indices generators Hsel).
  - rewrite Hgrp. now exists (len grp).
Qed.

Lemma check_removals_total (generating_tuple : list Z) (positions : list nat) :
  (forall i, In i positions ->
     exists n, closure_size set_order operators
                 (remove_position i generating_tuple) = Some n) ->
  exists b, check_removals set_order operators generating_tuple positions
            = Some b.
Proof.
  induction positions as [| i rest IH]; intros Hall; simpl.
  - now exists true.
  - destruct (Hall i (or_introl eq_refl)) as [n Hn]. rewrite Hn. unfold bind.
    destruct (n =? 432); [now exists false |].
    apply IH. intros j Hj. apply Hall. now right.
Qed.

End On432Pool.

Lemma closure_size_total (set_order : list Tuple9 -> list Tuple9)
    (operators : list Matrix3) (indices : list Z) (generators : list Matrix3) :
  (forall s, Permutation (set_order s) s) ->
  select_operators operators indices = Some generators ->
  exists n, closure_size set_order operators indices = Some n.
Proof.
  intros Hperm Hsel. unfold closure_size. rewrite Hsel. unfold bind.
  destruct (generate_group_run_total set_order Hperm generators 432)
    as [st Hrun].
  unfold generate_group. rewrite Hrun. simpl. now eexists.
Qed.

(** X7. On a pool of row-stochastic invertible matrices over F3 no closure
    exceeds 432 elements, so [verify_minimality] answers [True] on a tuple
    of valid indices, of length other than 1, exactly when the tuple gives
    432 elements and every tuple with one position removed gives strictly
    fewer. *)
Theorem verify_minimality_on_432_pool
    (set_order : list Tuple9 -> list Tuple9) (operators : list Matrix3)
    (generating_tuple : list Z) (generators : list Matrix3) :
  (forall s, Permutation (set_order s) s) ->
  (forall M, In M operators -> In M ops_432) ->
  List.length generating_tuple <> 1%nat ->
  select_operators operators generating_tuple = Some generators ->
  exists b,
    verify_minimality set_order operators generating_tuple = Some b /\
    (b = true <->
     closure_size set_order operators generating_tuple = Some 432 /\
     forall i, (i < List.length generating_tuple)%nat ->
       exists n, closure_size set_order operators
                   (remove_position i generating_tuple) = Some n /\ n < 432).
Proof.
  intros Hperm Hpool Hk Hsel.
  assert (Hred : forall i, exists n,
            closure_size set_order operators
              (remove_position i generating_tuple) = Some n /\ n <= 432).
  { intros i.
    apply (closure_size_on_432_pool set_order operators Hperm Hpool _
             (firstn i generators ++ skipn (S i) generators)).
    now apply select_operators_remove. }
  assert (Hiff : verify_minimality set_order operators generating_tuple
                   = Some true <->
     closure_size set_order operators generating_tuple = Some 432 /\
     forall i, (i < List.length generating_tuple)%nat ->
       exists n, closure_size set_order operators
                   (remove_position i generating_tuple) = Some n /\ n < 432).
  { rewrite (verify_minimality_true set_order operators generating_tuple Hk).
    split; intros [Hfull Hall]; (split; [assumption |]); intros i Hi;
      destruct (Hall i Hi) as [n [Hn Hneq]];
      destruct (Hred i) as [m [Hm Hle]];
      exists n; (split; [assumption |]); assert (n = m) by congruence; lia. }
  assert (Htotal : exists b,
            verify_minimality set_order operators generating_tuple = Some b).
  { unfold verify_minimality.
    destruct (Nat.eqb_spec (List.length generating_tuple) 1); [contradiction |].
    destruct (closure_size_total set_order operators generating_tuple
                generators Hperm Hsel) as [size Hsize].
    rewrite Hsize. unfold bind.
    destruct (negb (size =? 432)); [now exists false |].
    apply check_removals_total. intros i _.
    destruct (Hred i) as [m [Hm _]]. now exists m. }
  destruct Htotal as [b Hb]. exists b. split; [assumption |].
  rewrite <- Hiff, Hb. split; [now intros -> | now intros [= ->]].
Qed.

Lemma known_generators_in_432 : forall M, In M known_generators -> In M ops_432.
Proof.
  assert (H : forallb (fun M => tuple_mem (matrix_to_tuple M)
                                  (map matrix_to_tuple ops_432))
                      known_generators = true) by (vm_compute; reflexivity).
  intros M HM. apply (proj1 (forallb_forall _ _) H) in HM.
  apply tuple_mem_spec in HM. now apply In_key in HM.
Qed.

Lemma verify_minimality_on_432_pool_witness :
  exists b,
    verify_minimality insertion_order known_generators [0; 1] = Some b /\
    (b = true <->
     closure_size insertion_order known_generators [0; 1] = Some 432 /\
     forall i, (i < List.length [0; 1])%nat ->
       exists n, closure_size insertion_order known_generators
                   (remove_position i [0; 1]) = Some n /\ n < 432).
Proof.
  apply (verify_minimality_on_432_pool insertion_order known_generators
           [0; 1] seed_pair).
  - intros s. apply Permutation_refl.
  - exact known_generators_in_432.
  - simpl. lia.
  - reflexivity.
Defined.

(** X6. Seeds taken from the 432-set give a closure inside the 432-set: it
    never has more than 432 elements, whatever the cap and the order of
    the walk. *)
Theorem closure_of_432_seeds_stays_in_432
    (set_order : list Tuple9 -> list Tuple9)
    (generators : list Matrix3) (max_size : Z) :
  (forall s, Permutation (set_order s) s) ->
  (forall M, In M generators -> In M ops_432) ->
  exists grp,
    generate_group set_order generators max_size = Some grp /\
    len grp <= 432 /\ NoDup grp /\
    (forall t, In t grp -> In (tuple_to_matrix t) ops_432).
Proof. apply generate_group_of_432_seeds. Qed.

Lemma closure_of_432_seeds_stays_in_432_witness :
  exists grp,
    generate_group insertion_order known_generators 432 = Some grp /\
    len grp <= 432 /\ NoDup grp /\
    (forall t, In t grp -> In (tuple_to_matrix t) ops_432).
Proof.
  apply (closure_of_432_seeds_stays_in_432 insertion_order known_generators 432).
  - intros s. apply Permutation_refl.
  - exact known_generators_in_432.
Defined.

(** ** A run that stays below the cap returns a set closed under
       multiplication *)

Lemma insert_products_complete (max_size : Z) :
  insert_complete max_size (insert_products max_size).
Proof.
  intros prods. induction prods as [| prod rest IH]; intros grp queue.
  - exists [], []. simpl. rewrite !app_nil_r.
    repeat split; auto; contradiction.
  - simpl. destruct (tuple_mem (matrix_to_tuple prod) grp) eqn:Hmem.
    + apply tuple_mem_spec in Hmem.
      destruct (IH grp queue) as (added & newq & Heq & Hq & Hc).
      exists added, newq. rewrite Heq. repeat split; auto.
      * now apply Hc.
      * intros M [<- | HM]; [apply in_or_app; now left | now apply Hc].
    + destruct (len (grp ++ [matrix_to_tuple prod]) >=? max_size) eqn:Hge.
      * apply Z.geb_le in Hge.
        exists [matrix_to_tuple prod], []. rewrite app_nil_r.
        repeat split; try contradiction; lia.
      * destruct (IH (grp ++ [matrix_to_tuple prod]) (queue ++ [prod]))
          as (added & newq & Heq & Hq & Hc).
        exists (matrix_to_tuple prod :: added), (prod :: newq).
        rewrite Heq, <- !app_assoc. simpl. rewrite <- app_assoc in Hq, Hc.
        simpl in Hq, Hc. repeat split.
        -- intros M [<- | HM]; [| now apply Hq].
           apply in_or_app. right. now left.
        -- intros t [<- | Ht]; [now left | right; now apply Hc].
        -- intros M [<- | HM]; [| now apply Hc].
           apply in_or_app. right. now left.
Qed.

Lemma insert_products_pair_complete (max_size : Z) :
  insert_complete max_size insert_products_pair.
Proof.
  intros prods. induction prods as [| prod rest IH]; intros grp queue.
  - exists [], []. simpl. rewrite !app_nil_r.
    repeat split; auto; contradiction.
  - simpl. destruct (tuple_mem (matrix_to_tuple prod) grp) eqn:Hmem.
    + apply tuple_mem_spec in Hmem.
      destruct (IH grp queue) as (added & newq & Heq & Hq & Hc).
      exists added, newq. rewrite Heq. repeat split; auto.
      * now apply Hc.
      * intros M [<- | HM]; [apply in_or_app; now left | now apply Hc].
    + destruct (IH (grp ++ [matrix_to_tuple prod]) (queue ++ [prod]))
        as (added & newq & Heq & Hq & Hc).
      exists (matrix_to_tuple prod :: added), (prod :: newq).
      rewrite Heq, <- !app_assoc. simpl. rewrite <- app_assoc in Hq, Hc.
      simpl in Hq, Hc. repeat split.
      * intros M [<- | HM]; [| now apply Hq].
        apply in_or_app. right. now left.
      * intros t [<- | Ht]; [now left | right; now apply Hc].
      * intros M [<- | HM]; [| now apply Hc].
        apply in_or_app. right. now left.
Qed.

Section CompleteRuns.

Variable set_order : list Tuple9 -> list Tuple9.
Variable insert :
  list Matrix3 -> list Tuple9 -> list Matrix3 -> list Tuple9 * list Matrix3.
Variable max_size : Z.

Hypothesis set_order_perm : forall s, Permutation (set_order s) s.
Hypothesis insert_full : insert_complete max_size insert.

Lemma expand_complete (current : Matrix3) (snapshot : list Tuple9) :
  forall grp queue,
  exists added newq,
    expand insert current snapshot grp queue = (grp ++ added, queue ++ newq) /\
    (forall M, In M newq -> In (matrix_to_tuple M) (grp ++ added)) /\
    (len (grp ++ added) < max_size ->
     (forall t, In t added -> In t (map matrix_to_tuple newq)) /\
     (forall M, In M (products_of current snapshot) ->
                In (matrix_to_tuple M) (grp ++ added))).
Proof.
  induction snapshot as [| e snap IH]; intros grp queue.
  - exists [], []. unfold expand. simpl. rewrite !app_nil_r.
    repeat split; auto; contradiction.
  - unfold expand. simpl fold_left.
    destruct (insert_full
                [matrix_mult_mod3 current (tuple_to_matrix e);
                 matrix_mult_mod3 (tuple_to_matrix e) current] grp queue)
      as (a1 & q1 & Heq1 & Hq1 & Hc1).
    rewrite Heq1. simpl fst. simpl snd.
    destruct (IH (grp ++ a1) (queue ++ q1)) as (a2 & q2 & Heq2 & Hq2 & Hc2).
    unfold expand in Heq2. rewrite Heq2.
    exists (a1 ++ a2), (q1 ++ q2). rewrite !app_assoc.
    split; [reflexivity |]. split.
    + intros M HM. apply in_app_or in HM. destruct HM as [HM | HM].
      * apply in_or_app. left. now apply Hq1.
      * now apply Hq2.
    + intros Hlen.
      assert (Hlen1 : len (grp ++ a1) < max_size).
      { unfold len in *. rewrite !length_app in *. lia. }
      destruct (Hc1 Hlen1) as [Ha1 Hp1]. destruct (Hc2 Hlen) as [Ha2 Hp2].
      split.
      * intros t Ht. rewrite map_app. apply in_app_or in Ht.
        apply in_or_app. destruct Ht as [Ht | Ht]; auto.
      * intros M HM. simpl in HM.
        destruct HM as [<- | [<- | HM]].
        -- apply in_or_app. left. apply Hp1. now left.
        -- apply in_or_app. left. apply Hp1. right. now left.
        -- now apply Hp2.
Qed.

Lemma bfs_keeps_run_invariant (fuel : nat) (st st' : Closure) :
  bfs set_order insert fuel max_size st = Some st' ->
  run_invariant max_size st ->
  run_invariant max_size st' /\ loop_done max_size st'.
Proof.
  intros Hrun Hinv.
  apply (bfs_rule set_order insert max_size (run_invariant max_size))
    in Hrun; auto.
  - (* current was processed before *)
    intros s current rest Hs _ Hp (H0 & H1 & H2 & H3).
    apply tuple_mem_spec in Hp.
    unfold run_invariant. simpl. repeat split; auto.
    + intros M HM. apply H2. rewrite Hs. now right.
    + intros t Ht. destruct (H3 H) as [H4 _].
      destruct (H4 t Ht) as [-> | [Ht' | Ht']]; auto.
      rewrite Hs in Ht'. simpl in Ht'. destruct Ht' as [<- | Ht']; auto.
    + now apply H3.
  - (* current is expanded *)
    intros s current rest grp' queue' Hs Hlt _ He (H0 & H1 & H2 & H3).
    destruct (expand_complete current (set_order (group s)) (group s) rest)
      as (added & newq & Heq & Hq & Hc).
    rewrite Heq in He. injection He as <- <-.
    assert (Hcur : In (matrix_to_tuple current) (group s))
      by (apply H2; rewrite Hs; now left).
    unfold run_invariant. simpl. split; [| split; [| split]].
    + apply in_or_app. now left.
    + intros t Ht. apply in_or_app. left. apply in_app_or in Ht.
      destruct Ht as [Ht | [<- | []]]; auto.
    + intros M HM. apply in_app_or in HM. destruct HM as [HM | HM].
      * apply in_or_app. left. apply H2. rewrite Hs. now right.
      * now apply Hq.
    + intros Hlen. destruct (Hc Hlen) as [Hadded Hprods].
      destruct (H3 Hlt) as [H4 H5]. split.
      * intros t Ht. apply in_app_or in Ht. destruct Ht as [Ht | Ht].
        -- destruct (H4 t Ht) as [-> | [Ht' | Ht']]; auto.
           ++ right. left. apply in_or_app. now left.
           ++ rewrite Hs in Ht'. simpl in Ht'. destruct Ht' as [<- | Ht'].
              ** right. left. apply in_or_app. right. now left.
              ** right. right. rewrite map_app. apply in_or_app. now left.
        -- right. right. rewrite map_app. apply in_or_app. right.
           now apply Hadded.
      * assert (Hdone : forall d,
                  In d (matrix_to_tuple identity :: processed s) ->
                  In d (set_order (group s))).
        { intros d Hd.
          apply (Permutation_in _ (Permutation_sym (set_order_perm (group s)))).
          destruct Hd as [<- | Hd]; auto. }
        assert (Hwith : forall d, In d (set_order (group s)) ->
                  In (matrix_to_tuple
                        (matrix_mult_mod3 current (tuple_to_matrix d)))
                     (group s ++ added) /\
                  In (matrix_to_tuple
                        (matrix_mult_mod3 (tuple_to_matrix d) current))
                     (group s ++ added)).
        { intros d Hd. split; apply Hprods; unfold products_of;
            apply in_flat_map; exists d; simpl; auto. }
        assert (Hself : In (matrix_to_tuple current) (set_order (group s))).
        { now apply (Permutation_in _
                       (Permutation_sym (set_order_perm (group s)))). }
        intros a b Ha Hb.
        assert (Ha' : In a (matrix_to_tuple identity :: processed s) \/
                      a = matrix_to_tuple current).
        { destruct Ha as [<- | Ha]; [left; now left |].
          apply in_app_or in Ha. destruct Ha as [Ha | [<- | []]]; auto.
          left. now right. }
        assert (Hb' : In b (matrix_to_tuple identity :: processed s) \/
                      b = matrix_to_tuple current).
        { destruct Hb as [<- | Hb]; [left; now left |].
          apply in_app_or in Hb. destruct Hb as [Hb | [<- | []]]; auto.
          left. now right. }
        destruct Ha' as [Ha' | ->], Hb' as [Hb' | ->].
        -- apply in_or_app. left. now apply H5.
        -- rewrite (tuple_to_matrix_to_tuple current).
           now apply Hwith, Hdone.
        -- rewrite (tuple_to_matrix_to_tuple current).
           now apply Hwith, Hdone.
        -- rewrite (tuple_to_matrix_to_tuple current).
           rewrite <- (tuple_to_matrix_to_tuple current) at 2.
           now apply Hwith.
Qed.

Lemma run_invariant_closed (st : Closure) :
  run_invariant max_size st -> loop_done max_size st ->
  len (group st) < max_size -> closed_under_mult (group st).
Proof.
  intros (H0 & H1 & H2 & H3) Hdone Hlen.
  destruct Hdone as [Hq | Hcap]; [| lia].
  destruct (H3 Hlen) as [H4 H5].
  assert (Hall : forall t, In t (group st) ->
            In t (matrix_to_tuple identity :: processed st)).
  { intros t Ht. destruct (H4 t Ht) as [-> | [Ht' | Ht']].
    - now left.
    - now right.
    - rewrite Hq in Ht'. contradiction. }
  intros a b Ha Hb. apply H5; now apply Hall.
Qed.

End CompleteRuns.

Lemma initial_run_invariant (max_size : Z) (generators : list Matrix3) :
  run_invariant max_size (initial generators).
Proof.
  unfold run_invariant.
  change (processed (initial generators)) with (@nil Tuple9).
  change (to_process (initial generators)) with generators.
  split; [| split; [| split]].
  - apply initial_group_In. now left.
  - intros t [].
  - intros M HM. apply initial_group_In. right. now apply in_map.
  - intros _. split.
    + intros t Ht. apply initial_group_In in Ht. tauto.
    + intros a b [<- | []] [<- | []]. apply initial_group_In. left.
      reflexivity.
Qed.

Lemma generate_group_run_invariant (set_order : list Tuple9 -> list Tuple9)
    (generators : list Matrix3) (max_size : Z) (st : Closure) :
  (forall s, Permutation (set_order s) s) ->
  generate_group_run set_order generators max_size = Some st ->
  run_invariant max_size st /\ loop_done max_size st.
Proof.
  intros Hperm Hrun. unfold generate_group_run in Hrun.
  apply (bfs_keeps_run_invariant set_order (insert_products max_size) max_size
           Hperm (insert_products_complete max_size) _ _ _ Hrun).
  apply initial_run_invariant.
Qed.

Lemma generate_group_complete_closed (set_order : list Tuple9 -> list Tuple9)
    (generators : list Matrix3) (max_size : Z) (grp : list Tuple9) :
  (forall s, Permutation (set_order s) s) ->
  generate_group set_order generators max_size = Some grp ->
  len grp < max_size ->
  closed_under_mult grp.
Proof.
  intros Hperm Hrun Hlen.
  apply generate_group_some in Hrun. destruct Hrun as [st [Hrun <-]].
  destruct (generate_group_run_invariant set_order generators max_size st
              Hperm Hrun) as [Hinv Hdone].
  now apply (run_invariant_closed max_size st).
Qed.

Lemma pair_closure_total
    (set_order : list Tuple9 -> list Tuple9) (M1 M2 : Matrix3) (max_size : Z) :
  (forall s, Permutation (set_order s) s) ->
  exists grp,
    generate_group_from_pair set_order M1 M2 max_size = Some grp /\
    NoDup grp /\
    (len grp < max_size -> closed_under_mult grp).
Proof.
  intros Hperm. unfold generate_group_from_pair.
  destruct (bfs_fuel_enough set_order insert_products_pair max_size Hperm
              insert_products_pair_spec
              (closure_fuel [M1; M2] max_size) (initial [M1; M2]))
    as [st Hrun].
  { unfold closure_fuel, initial. simpl. lia. }
  rewrite Hrun. exists (group st). split; [reflexivity |]. split.
  - apply (bfs_rule set_order insert_products_pair max_size
             (fun s => NoDup (group s))) in Hrun.
    + apply Hrun.
    + auto.
    + intros s current rest grp' queue' _ _ _ He Hnd. simpl.
      destruct (expand_spec insert_products_pair insert_products_pair_spec
                  current (set_order (group s)) (group s) rest)
        as (added & newq & Heq & _ & Hnd' & _).
      rewrite Heq in He. injection He as <- <-. auto.
    + apply initial_group_NoDup.
  - intros Hlen.
    destruct (bfs_keeps_run_invariant set_order insert_products_pair max_size
                Hperm (insert_products_pair_complete max_size) _ _ _ Hrun
                (initial_run_invariant max_size [M1; M2])) as [Hinv Hdone].
    now apply (run_invariant_closed max_size st).
Qed.

Lemma closed_set_is_family (s : list Tuple9) :
  In (matrix_to_tuple identity) s -> closed_under_mult s ->
  closed_family (fun M => In (matrix_to_tuple M) s).
Proof.
  intros HI Hclosed. split; [assumption |].
  intros A B HA HB. specialize (Hclosed _ _ HA HB).
  now rewrite !tuple_to_matrix_to_tuple in Hclosed.
Qed.

Lemma complete_closure_least
    (order1 order2 : list Tuple9 -> list Tuple9)
    (generators : list Matrix3) (cap1 cap2 : Z) (grp1 grp2 : list Tuple9) :
  (forall s, Permutation (order1 s) s) ->
  (forall s, Permutation (order2 s) s) ->
  generate_group order1 generators cap1 = Some grp1 ->
  generate_group order2 generators cap2 = Some grp2 ->
  len grp1 < cap1 ->
  incl grp2 grp1 /\ (len grp2 < cap2 -> Permutation grp1 grp2).
Proof.
  intros Hp1 Hp2 H1 H2 Hlen1.
  pose proof (generate_group_complete_closed order1 generators cap1 grp1
                Hp1 H1 Hlen1) as Hclosed1.
  destruct (generate_group_within_family order1 (fun _ => True) generators
              cap1 grp1 Hp1) as (_ & HI1 & Hg1 & Hnd1); auto.
  { split; auto. }
  destruct (generate_group_within_family order2 (fun _ => True) generators
              cap2 grp2 Hp2) as (_ & HI2 & Hg2 & Hnd2); auto.
  { split; auto. }
  assert (Hincl : incl grp2 grp1).
  { destruct (generate_group_within_family order2
                (fun M => In (matrix_to_tuple M) grp1) generators cap2 grp2
                Hp2 (closed_set_is_family grp1 HI1 Hclosed1) Hg1 H2)
      as (HF & _).
    intros t Ht. specialize (HF t Ht).
    now rewrite matrix_to_tuple_to_matrix in HF. }
  split; [assumption |]. intros Hlen2.
  pose proof (generate_group_complete_closed order2 generators cap2 grp2
                Hp2 H2 Hlen2) as Hclosed2.
  apply NoDup_Permutation; auto. intros t. split; [| apply Hincl].
  destruct (generate_group_within_family order1
              (fun M => In (matrix_to_tuple M) grp2) generators cap1 grp1
              Hp1 (closed_set_is_family grp2 HI2 Hclosed2) Hg2 H1)
    as (HF & _).
  intros Ht. specialize (HF t Ht).
  now rewrite matrix_to_tuple_to_matrix in HF.
Qed.

(** X8. A run of [generate_group] on seeds over F3 that returns fewer than
    [max_size] elements returns a set closed under multiplication mod 3. *)
Theorem complete_closure_is_closed (set_order : list Tuple9 -> list Tuple9)
    (generators : list Matrix3) (max_size : Z) (grp : list Tuple9) :
  (forall s, Permutation (set_order s) s) ->
  forallb over_F3 generators = true ->
  generate_group set_order generators max_size = Some grp ->
  len grp < max_size ->
  closed_under_mult grp.
Proof. intros Hperm _. now apply generate_group_complete_closed. Qed.

Lemma complete_closure_is_closed_witness :
  closed_under_mult
    [(1, 0, 0, 0, 1, 0, 0, 0, 1); (0, 1, 0, 0, 0, 1, 1, 0, 0);
     (0, 0, 1, 1, 0, 0, 0, 1, 0)].
Proof.
  apply (complete_closure_is_closed insertion_order [cycle3] 10).
  - intros s. apply Permutation_refl.
  - reflexivity.
  - vm_compute. reflexivity.
  - vm_compute. reflexivity.
Defined.

(** X9. [generate_group_from_pair] on two matrices over F3 always returns;
    it returns no element twice, and when it returns fewer than [max_size]
    elements they form a set closed under multiplication mod 3. *)
Theorem pair_closure_returns_and_is_closed
    (set_order : list Tuple9 -> list Tuple9) (M1 M2 : Matrix3) (max_size : Z) :
  (forall s, Permutation (set_order s) s) ->
  over_F3 M1 = true -> over_F3 M2 = true ->
  exists grp,
    generate_group_from_pair set_order M1 M2 max_size = Some grp /\
    NoDup grp /\
    (len grp < max_size -> closed_under_mult grp).
Proof. intros Hperm _ _. now apply pair_closure_total. Qed.

Lemma pair_closure_returns_and_is_closed_witness :
  exists grp,
    generate_group_from_pair insertion_order cycle3 cycle3_squared 500
      = Some grp /\
    NoDup grp /\ (len grp < 500 -> closed_under_mult grp).
Proof.
  apply (pair_closure_returns_and_is_closed insertion_order
           cycle3 cycle3_squared 500).
  - intros s. apply Permutation_refl.
  - reflexivity.
  - reflexivity.
Defined.

(** X10. A complete closure is the least one: when some run of
    [generate_group] on seeds over F3 returns fewer elements than its cap,
    every run on the same seeds, with any cap and any order of the walk,
    returns a subset of it, and every other run that stays below its cap
    returns the same set. *)
Theorem complete_closure_is_independent_of_order
    (order1 order2 : list Tuple9 -> list Tuple9)
    (generators : list Matrix3) (cap1 cap2 : Z) (grp1 grp2 : list Tuple9) :
  (forall s, Permutation (order1 s) s) ->
  (forall s, Permutation (order2 s) s) ->
  forallb over_F3 generators = true ->
  generate_group order1 generators cap1 = Some grp1 ->
  generate_group order2 generators cap2 = Some grp2 ->
  len grp1 < cap1 ->
  incl grp2 grp1 /\ (len grp2 < cap2 -> Permutation grp1 grp2).
Proof. intros Hp1 Hp2 _. now apply complete_closure_least. Qed.

Lemma complete_closure_is_independent_of_order_witness :
  incl [(1, 0, 0, 0, 1, 0, 0, 0, 1); (0, 1, 0, 0, 0, 1, 1, 0, 0);
        (0, 0, 1, 1, 0, 0, 0, 1, 0)]
       [(1, 0, 0, 0, 1, 0, 0, 0, 1); (0, 1, 0, 0, 0, 1, 1, 0, 0);
        (0, 0, 1, 1, 0, 0, 0, 1, 0)] /\
  (len [(1, 0, 0, 0, 1, 0, 0, 0, 1); (0, 1, 0, 0, 0, 1, 1, 0, 0);
        (0, 0, 1, 1, 0, 0, 0, 1, 0)] < 3 ->
   Permutation
     [(1, 0, 0, 0, 1, 0, 0, 0, 1); (0, 1, 0, 0, 0, 1, 1, 0, 0);
      (0, 0, 1, 1, 0, 0, 0, 1, 0)]
     [(1, 0, 0, 0, 1, 0, 0, 0, 1); (0, 1, 0, 0, 0, 1, 1, 0, 0);
      (0, 0, 1, 1, 0, 0, 0, 1, 0)]).
Proof.
  apply (complete_closure_is_independent_of_order insertion_order
           insertion_order [cycle3] 10 3).
  - intros s. apply Permutation_refl.
  - intros s. apply Permutation_refl.
  - reflexivity.
  - vm_compute. reflexivity.
  - vm_compute. reflexivity.
  - vm_compute. reflexivity.
Defined.

(** ** With the cap 432 the walk order does not matter on 432-set seeds *)

Lemma length_le_of_incl (s s' : list Tuple9) :
  NoDup s -> incl s s' -> len s <= len s'.
Proof.
  intros Hnd Hincl. unfold len. apply Nat2Z.inj_le.
  now apply NoDup_incl_length.
Qed.

Lemma closure_cap_432_any_order
    (order1 order2 : list Tuple9 -> list Tuple9)
    (generators : list Matrix3) (grp1 grp2 : list Tuple9) :
  (forall s, Permutation (order1 s) s) ->
  (forall s, Permutation (order2 s) s) ->
  (forall M, In M generators -> In M ops_432) ->
  generate_group order1 generators 432 = Some grp1 ->
  generate_group order2 generators 432 = Some grp2 ->
  Permutation grp1 grp2.
Proof.
  intros Hp1 Hp2 Hgens H1 H2.
  destruct (generate_group_of_432_seeds order1 generators 432 Hp1 Hgens)
    as (g1 & Hg1 & Hle1 & Hnd1 & Hin1).
  destruct (generate_group_of_432_seeds order2 generators 432 Hp2 Hgens)
    as (g2 & Hg2 & Hle2 & Hnd2 & Hin2).
  assert (g1 = grp1) by congruence. assert (g2 = grp2) by congruence.
  subst g1 g2. clear Hg1 Hg2.
  destruct (Z_lt_ge_dec (len grp1) 432) as [Hlt1 | Hge1].
  - destruct (complete_closure_least order1 order2
                generators 432 432 grp1 grp2 Hp1 Hp2 H1 H2 Hlt1)
      as [Hincl Hperm].
    apply Hperm. pose proof (length_le_of_incl grp2 grp1 Hnd2 Hincl). lia.
  - destruct (Z_lt_ge_dec (len grp2) 432) as [Hlt2 | Hge2].
    + destruct (complete_closure_least order2 order1
                  generators 432 432 grp2 grp1 Hp2 Hp1 H2 H1 Hlt2)
        as [Hincl _].
      pose proof (length_le_of_incl grp1 grp2 Hnd1 Hincl). lia.
    + assert (Hk1 : Permutation grp1 (map matrix_to_tuple ops_432)).
      { apply NoDup_Permutation_bis; auto.
        - rewrite ops_432_length. unfold len in Hge1. lia.
        - intros t Ht. rewrite <- (matrix_to_tuple_to_matrix t).
          apply in_map. now apply Hin1. }
      assert (Hk2 : Permutation grp2 (map matrix_to_tuple ops_432)).
      { apply NoDup_Permutation_bis; auto.
        - rewrite ops_432_length. unfold len in Hge2. lia.
        - intros t Ht. rewrite <- (matrix_to_tuple_to_matrix t).
          apply in_map. now apply Hin2. }
      now rewrite Hk1, Hk2.
Qed.

Lemma closure_size_independent_of_order
    (set_order : list Tuple9 -> list Tuple9) (operators : list Matrix3)
    (indices : list Z) :
  (forall s, Permutation (set_order s) s) ->
  (forall M, In M operators -> In M ops_432) ->
  closure_size set_order operators indices
    = closure_size insertion_order operators indices.
Proof.
  intros Hperm Hpool. unfold closure_size.
  destruct (select_operators operators indices) as [gens |] eqn:Hsel;
    [| reflexivity].
  unfold bind.
  assert (Hgens : forall M, In M gens -> In M ops_432).
  { intros M HM. apply Hpool.
    now apply (select_operators_incl operators indices gens Hsel). }
  destruct (generate_group_of_432_seeds set_order gens 432 Hperm Hgens)
    as (g1 & Hg1 & _).
  destruct (generate_group_of_432_seeds insertion_order gens 432
              (fun s => Permutation_refl s) Hgens) as (g2 & Hg2 & _).
  rewrite Hg1, Hg2. f_equal. unfold len. f_equal.
  apply Permutation_length.
  now apply (closure_cap_432_any_order set_order
               insertion_order gens g1 g2 Hperm
               (fun s => Permutation_refl s) Hgens).
Qed.

(** X11. With the cap 432 that the search uses, and seeds from the 432-set,
    the set [generate_group] returns does not depend on the order in which
    Python walks a set: two runs return the same elements. *)
Theorem closure_with_cap_432_is_independent_of_order
    (order1 order2 : list Tuple9 -> list Tuple9)
    (generators : list Matrix3) (grp1 grp2 : list Tuple9) :
  (forall s, Permutation (order1 s) s) ->
  (forall s, Permutation (order2 s) s) ->
  (forall M, In M generators -> In M ops_432) ->
  generate_group order1 generators 432 = Some grp1 ->
  generate_group order2 generators 432 = Some grp2 ->
  Permutation grp1 grp2.
Proof. apply closure_cap_432_any_order. Qed.

Lemma closure_with_cap_432_is_independent_of_order_witness :
  Permutation
    [(1, 0, 0, 0, 1, 0, 0, 0, 1); (0, 1, 0, 0, 0, 1, 1, 0, 0);
     (0, 0, 1, 1, 0, 0, 0, 1, 0)]
    [(1, 0, 0, 0, 1, 0, 0, 0, 1); (0, 1, 0, 0, 0, 1, 1, 0, 0);
     (0, 0, 1, 1, 0, 0, 0, 1, 0)].
Proof.
  apply (closure_with_cap_432_is_independent_of_order insertion_order
           insertion_order [cycle3]).
  - intros s. apply Permutation_refl.
  - intros s. apply Permutation_refl.
  - intros M [<- | []]. apply In_key. apply tuple_mem_spec.
    vm_compute. reflexivity.
  - vm_compute. reflexivity.
  - vm_compute. reflexivity.
Defined.

(** ** The search does not depend on the walk order on a 432-set pool *)

Section SearchOrder.

Variable set_order : list Tuple9 -> list Tuple9.
Variable operators : list Matrix3.

Hypothesis set_order_perm : forall s, Permutation (set_order s) s.
Hypothesis pool_in_432 : forall M, In M operators -> In M ops_432.

Let same_size (indices : list Z) :
  closure_size set_order operators indices
    = closure_size insertion_order operators indices :=
  closure_size_independent_of_order set_order operators indices
    set_order_perm pool_in_432.

Lemma single_loop_order (indices : list Z) (results : SingleResults) :
  single_loop set_order operators indices results
    = single_loop insertion_order operators indices results.
Proof.
  revert results. induction indices as [| i rest IH]; intros results;
    [reflexivity |].
  simpl. rewrite same_size. unfold bind.
  destruct (closure_size insertion_order operators [i]); [| reflexivity].
  destruct (py_index operators i); [| reflexivity]. apply IH.
Qed.

Lemma pair_loop_order (pairs : list (Z * Z))
    (acc : list (Z * Z) * list Z * list (Z * Z)) :
  pair_loop set_order operators pairs acc
    = pair_loop insertion_order operators pairs acc.
Proof.
  revert acc. induction pairs as [| [i j] rest IH]; intros acc;
    [reflexivity |].
  simpl. rewrite same_size. unfold bind.
  destruct (closure_size insertion_order operators [i; j]); [| reflexivity].
  destruct acc as [[generating sizes] distribution]. apply IH.
Qed.

Lemma triple_loop_order (triples : list (list Z))
    (acc : list (list Z) * list Z * list (Z * Z)) :
  triple_loop set_order operators triples acc
    = triple_loop insertion_order operators triples acc.
Proof.
  revert acc. induction triples as [| triple rest IH]; intros acc;
    [reflexivity |].
  simpl. rewrite same_size. unfold bind.
  destruct (closure_size insertion_order operators triple); [| reflexivity].
  destruct acc as [[generating sizes] distribution]. apply IH.
Qed.

Lemma check_removals_order (generating_tuple : list Z) (positions : list nat) :
  check_removals set_order operators generating_tuple positions
    = check_removals insertion_order operators generating_tuple positions.
Proof.
  induction positions as [| i rest IH]; [reflexivity |].
  simpl. rewrite same_size, IH. reflexivity.
Qed.

Lemma verify_minimality_order (generating_tuple : list Z) :
  verify_minimality set_order operators generating_tuple
    = verify_minimality insertion_order operators generating_tuple.
Proof.
  unfold verify_minimality. rewrite same_size.
  destruct (Nat.eqb (List.length generating_tuple) 1); [reflexivity |].
  unfold bind.
  destruct (closure_size insertion_order operators generating_tuple);
    [| reflexivity].
  now rewrite check_removals_order.
Qed.

Lemma minimal_among_order (pairs : list (Z * Z)) :
  minimal_among set_order operators pairs
    = minimal_among insertion_order operators pairs.
Proof.
  induction pairs as [| [i j] rest IH]; [reflexivity |].
  simpl. now rewrite verify_minimality_order, IH.
Qed.

Lemma find_minimal_k_order (drawn : list (list Z)) :
  find_minimal_k set_order operators drawn
    = find_minimal_k insertion_order operators drawn.
Proof.
  unfold find_minimal_k, test_single_generators, test_pairs, test_triples.
  rewrite single_loop_order. unfold bind.
  destruct (single_loop insertion_order operators _ _) as [single |];
    [| reflexivity].
  destruct (generating_indices single); [| reflexivity].
  rewrite pair_loop_order.
  destruct (pair_loop insertion_order operators _ _) as [[[gp sizes] dist] |];
    [| reflexivity].
  destruct (quotient (len gp) _); [| reflexivity].
  destruct (quotient (fold_left Z.add sizes 0) _); [| reflexivity].
  cbn [generating_pairs]. destruct gp.
  - destruct (if len operators * (len operators - 1) * (len operators - 2) / 6
                 <? 10000 then None else Some drawn)
      as [triples_to_test |] eqn:Hdraw; cbn - [Z.mul Z.div Z.sub];
      rewrite ?Hdraw; [| reflexivity].
    rewrite triple_loop_order. reflexivity.
  - now rewrite minimal_among_order.
Qed.

End SearchOrder.

(** X15. On a pool taken from the 432-set, what [find_minimal_k] reports
    (the counts, the generating indices and pairs, the sizes, the orders,
    the minimal k and its verified examples, or the exception) does not
    depend on the order in which Python walks a set. *)
Theorem search_is_independent_of_order
    (set_order : list Tuple9 -> list Tuple9) (operators : list Matrix3)
    (drawn : list (list Z)) :
  (forall s, Permutation (set_order s) s) ->
  (forall M, In M operators -> In M ops_432) ->
  find_minimal_k set_order operators drawn
    = find_minimal_k insertion_order operators drawn.
Proof. intros Hperm Hpool. now apply find_minimal_k_order. Qed.

Lemma search_is_independent_of_order_witness :
  find_minimal_k (@rev Tuple9) known_generators []
    = find_minimal_k insertion_order known_generators [].
Proof.
  apply (search_is_independent_of_order (@rev Tuple9) known_generators []).
  - intros s. apply Permutation_sym, Permutation_rev.
  - exact known_generators_in_432.
Defined.

(** ** The whole run: loading, then searching *)

Lemma load_missing_paths (missing : list (option (list string))) :
  Forall (fun path => path = None) missing ->
  load_operators_108 missing = Some known_generators.
Proof.
  induction 1 as [| path rest Hpath _ IH]; [reflexivity |].
  subst path. exact IH.
Qed.



Lemma py_index_nil {A : Type} (i : Z) : py_index (@nil A) i = None.
Proof.
  unfold py_index.
  destruct ((0 <=? i) && (i <? len (@nil A))); [now destruct (Z.to_nat i) |].
  destruct ((- len (@nil A) <=? i) && (i <? 0)); [| reflexivity].
  now destruct (Z.to_nat (len (@nil A) + i)).
Qed.

(** X16. [main] when none of the candidate pool files exists: the search
    runs on the six known generators and, whatever the order in which sets
    are walked, finds that no single operator generates 432 elements (each
    gives 8 and has order 8), that 11 of the 15 pairs do (three pairs give
    72 elements and one 48), that the minimal k is 2, and that the 11
    generating pairs are all verified minimal. *)
Theorem search_without_pool_file
    (set_order : list Tuple9 -> list Tuple9)
    (possible_paths : list (option (list string))) (drawn : list (list Z)) :
  (forall s, Permutation (set_order s) s) ->
  Forall (fun path => path = None) possible_paths ->
  main_results set_order possible_paths drawn =
  Some (mkInvestigation 6
          (mkSingle 6 [] 8 [(8, 6)])
          (Some (mkPair 15 15
                   [(0, 1); (0, 2); (0, 4); (0, 5); (1, 2); (1, 3); (1, 4);
                    (2, 3); (2, 5); (3, 5); (4, 5)]
                   [432; 432; 72; 432; 432; 432; 432; 432; 72; 432; 72; 432;
                    48; 432; 432]
                   [(432, 11); (72, 3); (48, 1)]
                   (Qmake 11 15) (Qmake 5016 15)))
          None (Some 2)
          (Some [[0; 1]; [0; 2]; [0; 4]; [0; 5]; [1; 2]; [1; 3]; [1; 4];
                 [2; 3]; [2; 5]; [3; 5]])
          (Some 11)).
Proof.
  intros Hperm Hmissing. unfold main_results.
  rewrite (load_missing_paths possible_paths Hmissing). unfold bind.
  rewrite (find_minimal_k_order set_order known_generators Hperm
             known_generators_in_432).
  vm_compute. reflexivity.
Qed.

Lemma search_without_pool_file_witness :
  exists r,
    main_results insertion_order [None; None; None; None] [] = Some r /\
    minimal_k r = Some 2 /\ verified_minimal r = Some 11.
Proof.
  eexists. split.
  - apply (search_without_pool_file insertion_order [None; None; None; None] []).
    + intros s. apply Permutation_refl.
    + repeat constructor.
  - split; reflexivity.
Defined.





(** ** The two closure functions agree on seeds from the 432-set *)

Lemma pair_closure_agrees
    (order1 order2 : list Tuple9 -> list Tuple9) (M1 M2 : Matrix3)
    (max_size : Z) (grp pair_grp : list Tuple9) :
  (forall s, Permutation (order1 s) s) ->
  (forall s, Permutation (order2 s) s) ->
  In M1 ops_432 -> In M2 ops_432 -> 432 < max_size ->
  generate_group_from_pair order1 M1 M2 max_size = Some pair_grp ->
  generate_group order2 [M1; M2] 432 = Some grp ->
  Permutation grp pair_grp.
Proof.
  intros Hp1 Hp2 HM1 HM2 Hcap Hpair Hgrp.
  assert (Hgens : forall M, In M [M1; M2] -> In M ops_432)
    by (intros M [<- | [<- | []]]; assumption).
  apply in_432_spec in HM1, HM2.
  destruct (pair_closure_total order1 M1 M2 max_size Hp1)
    as (g & Hg & Hnd & Hclosed).
  assert (g = pair_grp) by congruence. subst g. clear Hg.
  destruct (generate_group_from_pair_within_family order1 in_432 M1 M2
              max_size pair_grp Hp1 in_432_closed HM1 HM2 Hpair)
    as (Hin & HI & H1 & H2).
  assert (Hsub : incl pair_grp (map matrix_to_tuple ops_432)).
  { intros t Ht. rewrite <- (matrix_to_tuple_to_matrix t). apply in_map.
    apply in_432_spec. now apply Hin. }
  assert (Hlen : len pair_grp <= 432).
  { pose proof (length_le_of_incl _ _ Hnd Hsub) as H.
    unfold len in H at 2. rewrite ops_432_length in H. exact H. }
  assert (Hcl : closed_under_mult pair_grp) by (apply Hclosed; lia).
  destruct (generate_group_of_432_seeds order2 [M1; M2] 432 Hp2 Hgens)
    as (g & Hg & Hle & Hnd2 & Hin2).
  assert (g = grp) by congruence. subst g. clear Hg.
  assert (Hincl : incl grp pair_grp).
  { destruct (generate_group_within_family order2
                (fun M => In (matrix_to_tuple M) pair_grp) [M1; M2] 432 grp
                Hp2 (closed_set_is_family pair_grp HI Hcl)) as (HF & _); auto.
    - intros M [<- | [<- | []]]; assumption.
    - intros t Ht. specialize (HF t Ht).
      now rewrite matrix_to_tuple_to_matrix in HF. }
  destruct (Z_lt_ge_dec (len grp) 432) as [Hlt | Hge].
  - pose proof (generate_group_complete_closed order2 [M1; M2] 432 grp
                  Hp2 Hgrp Hlt) as Hcl2.
    destruct (generate_group_within_family order2 (fun _ => True) [M1; M2]
                432 grp Hp2) as (_ & HI2 & Hg2 & _); auto.
    { split; auto. }
    apply NoDup_Permutation; auto. intros t. split; [apply Hincl |].
    destruct (generate_group_from_pair_within_family order1
                (fun M => In (matrix_to_tuple M) grp) M1 M2 max_size pair_grp
                Hp1 (closed_set_is_family grp HI2 Hcl2)) as (HF & _); auto.
    + apply Hg2. now left.
    + apply Hg2. right. now left.
    + intros Ht. specialize (HF t Ht).
      now rewrite matrix_to_tuple_to_matrix in HF.
  - apply NoDup_Permutation_bis; auto. unfold len in *. lia.
Qed.

(** X12. With a cap above 432, [generate_group_from_pair] on two matrices
    of the 432-set returns the set that [generate_group] returns on the
    same two seeds with the cap 432, whatever the orders of the two walks. *)
Theorem pair_closure_agrees_with_generate_group
    (order1 order2 : list Tuple9 -> list Tuple9) (M1 M2 : Matrix3)
    (max_size : Z) (grp pair_grp : list Tuple9) :
  (forall s, Permutation (order1 s) s) ->
  (forall s, Permutation (order2 s) s) ->
  In M1 ops_432 -> In M2 ops_432 -> 432 < max_size ->
  generate_group_from_pair order1 M1 M2 max_size = Some pair_grp ->
  generate_group order2 [M1; M2] 432 = Some grp ->
  Permutation grp pair_grp.
Proof. apply pair_closure_agrees. Qed.

Lemma pair_closure_agrees_with_generate_group_witness :
  Permutation
    [(1, 0, 0, 0, 1, 0, 0, 0, 1); (0, 1, 0, 0, 0, 1, 1, 0, 0);
     (0, 0, 1, 1, 0, 0, 0, 1, 0)]
    [(1, 0, 0, 0, 1, 0, 0, 0, 1); (0, 1, 0, 0, 0, 1, 1, 0, 0);
     (0, 0, 1, 1, 0, 0, 0, 1, 0)].
Proof.
  apply (pair_closure_agrees_with_generate_group insertion_order
           insertion_order cycle3 cycle3_squared 500).
  - intros s. apply Permutation_refl.
  - intros s. apply Permutation_refl.
  - apply In_key. apply tuple_mem_spec. vm_compute. reflexivity.
  - apply In_key. apply tuple_mem_spec. vm_compute. reflexivity.
  - lia.
  - vm_compute. reflexivity.
  - vm_compute. reflexivity.
Defined.

(** X13. What [test_specific_pair_generates_432] and
    [test_generated_group_is_closed] look for: when
    [generate_group_from_pair], with a cap above 432, returns 432 elements
    on two matrices of the 432-set, these are exactly the 432 matrices kept
    by [check_conservation], and they are closed under multiplication. *)
Theorem pair_closure_of_size_432_is_the_432_set
    (set_order : list Tuple9 -> list Tuple9) (M1 M2 : Matrix3)
    (max_size : Z) (grp : list Tuple9) :
  (forall s, Permutation (set_order s) s) ->
  In M1 ops_432 -> In M2 ops_432 -> 432 < max_size ->
  generate_group_from_pair set_order M1 M2 max_size = Some grp ->
  len grp = 432 ->
  closed_under_mult grp /\ Permutation grp (map matrix_to_tuple ops_432).
Proof.
  intros Hperm HM1 HM2 Hcap Hpair Hlen.
  apply in_432_spec in HM1, HM2.
  destruct (pair_closure_total set_order M1 M2 max_size Hperm)
    as (g & Hg & Hnd & Hclosed).
  assert (g = grp) by congruence. subst g. clear Hg.
  destruct (generate_group_from_pair_within_family set_order in_432 M1 M2
              max_size grp Hperm in_432_closed HM1 HM2 Hpair) as (Hin & _).
  split; [apply Hclosed; lia |].
  apply NoDup_Permutation_bis; auto.
  - rewrite ops_432_length. unfold len in Hlen. lia.
  - intros t Ht. rewrite <- (matrix_to_tuple_to_matrix t). apply in_map.
    apply in_432_spec. now apply Hin.
Qed.

Lemma pair_closure_of_size_432_is_the_432_set_witness :
  exists grp,
    generate_group_from_pair insertion_order
      (mk3 0 1 0  0 2 2  1 0 0) (mk3 0 1 0  0 2 2  1 2 1) 500 = Some grp /\
    closed_under_mult grp /\ Permutation grp (map matrix_to_tuple ops_432).
Proof.
  assert (H0 : In (mk3 0 1 0  0 2 2  1 0 0) ops_432)
    by (apply known_generators_in_432; simpl; auto).
  assert (H1 : In (mk3 0 1 0  0 2 2  1 2 1) ops_432)
    by (apply known_generators_in_432; simpl; auto).
  destruct (pair_closure_total insertion_order
              (mk3 0 1 0  0 2 2  1 0 0) (mk3 0 1 0  0 2 2  1 2 1) 500
              (fun s => Permutation_refl s)) as (grp & Hgrp & _).
  destruct (generate_group_of_432_seeds insertion_order seed_pair 432
              (fun s => Permutation_refl s)) as (R & HR & _).
  { intros M HM. apply known_generators_in_432.
    unfold seed_pair in HM. simpl in HM. simpl. tauto. }
  assert (Hsize : option_map len (generate_group insertion_order seed_pair 432)
                  = Some 432) by (vm_compute; reflexivity).
  rewrite HR in Hsize. injection Hsize as Hsize.
  pose proof (pair_closure_agrees insertion_order insertion_order _ _ 500
                R grp (fun s => Permutation_refl s)
                (fun s => Permutation_refl s) H0 H1 ltac:(lia) Hgrp HR)
    as Hperm_R.
  exists grp. split; [exact Hgrp |].
  apply (pair_closure_of_size_432_is_the_432_set insertion_order
           (mk3 0 1 0  0 2 2  1 0 0) (mk3 0 1 0  0 2 2  1 2 1) 500 grp).
  - intros s. apply Permutation_refl.
  - exact H0.
  - exact H1.
  - lia.
  - exact Hgrp.
  - unfold len in *. now rewrite <- (Permutation_length Hperm_R).
Defined.

(** ** [compute_order] finds the multiplicative order *)

Lemma mod3_idempotent (M : Matrix3) : mod3 (mod3 M) = mod3 M.
Proof.
  unfold mod3. cbn [m00 m01 m02 m10 m11 m12 m20 m21 m22].
  now rewrite !Zmod_mod.
Qed.

Lemma matmul_mod3_l (A B : Matrix3) :
  mod3 (matmul (mod3 A) B) = mod3 (matmul A B).
Proof.
  unfold mod3, matmul. cbn [m00 m01 m02 m10 m11 m12 m20 m21 m22].
  f_equal;
    (change (eqm 3 (?x) (?y)) || idtac);
    match goal with
    | |- ?x mod 3 = ?y mod 3 => change (eqm 3 x y)
    end;
    repeat apply Zplus_eqm; apply Zmult_eqm;
    (apply Zmod_eqm || apply eqm_refl).
Qed.

Lemma order_loop_spec (M : Matrix3) :
  forall steps current n,
    1 <= n ->
    mod3 current = mat_pow M (Z.to_nat n) ->
    (forall m, (0 < m < Z.to_nat n)%nat -> mat_pow M m <> identity) ->
    match order_loop M current n steps with
    | Some r => n <= r < n + Z.of_nat steps /\ has_order M r
    | None =>
        forall m, (0 < m < Z.to_nat n + steps)%nat -> mat_pow M m <> identity
    end.
Proof.
  induction steps as [| steps IH]; intros current n Hn Hcur Hbelow.
  - simpl. intros m Hm. apply Hbelow. lia.
  - simpl. destruct (array_equal (mod3 current) identity) eqn:Heq.
    + apply array_equal_spec in Heq. split; [lia |].
      unfold has_order. rewrite <- Hcur. repeat split; auto. lia.
    + assert (Hneq : mat_pow M (Z.to_nat n) <> identity).
      { rewrite <- Hcur. intros H. apply array_equal_spec in H. congruence. }
      specialize (IH (matrix_mult_mod3 current M) (n + 1)).
      assert (Hnext : Z.to_nat (n + 1) = S (Z.to_nat n)) by lia.
      rewrite Hnext in IH.
      destruct (order_loop M (matrix_mult_mod3 current M) (n + 1) steps)
        as [r |].
      * destruct IH as [Hr Hord]; try lia.
        -- cbn [mat_pow]. rewrite <- Hcur. unfold matrix_mult_mod3.
           now rewrite mod3_idempotent, matmul_mod3_l.
        -- intros m Hm. destruct (Nat.eq_dec m (Z.to_nat n)) as [-> | Hne];
             [assumption | apply Hbelow; lia].
        -- split; [lia | assumption].
      * intros m Hm. apply IH; try lia.
        -- cbn [mat_pow]. rewrite <- Hcur. unfold matrix_mult_mod3.
           now rewrite mod3_idempotent, matmul_mod3_l.
        -- intros k Hk. destruct (Nat.eq_dec k (Z.to_nat n)) as [-> | Hne];
             [assumption | apply Hbelow; lia].
Qed.

Lemma mat_pow_1 (M : Matrix3) : mat_pow M 1 = mod3 M.
Proof.
  cbn [mat_pow]. unfold matrix_mult_mod3. f_equal.
  destruct M as [a b c d e f g h i]. unfold matmul, identity.
  cbn [m00 m01 m02 m10 m11 m12 m20 m21 m22]. f_equal; ring.
Qed.

(** X14. On every matrix over F3, [compute_matrix_order] with a cap
    [max_order] returns the multiplicative order of the matrix mod 3 (the
    least positive exponent that gives the identity) when that order is at
    most [max_order], and [-1] exactly when no exponent from 1 to
    [max_order] gives the identity; [compute_order] of the 54-set test is
    the same search with the cap 20 and [None] in place of [-1]. *)
Theorem compute_matrix_order_finds_the_order (M : Matrix3) (max_order : Z) :
  over_F3 M = true ->
  let r := compute_matrix_order M max_order in
  ((r = -1 /\
    forall m, (0 < m <= Z.to_nat max_order)%nat -> mat_pow M m <> identity) \/
   (1 <= r <= max_order /\ has_order M r)) /\
  compute_order M
    = (if compute_matrix_order M 20 =? -1 then None
       else Some (compute_matrix_order M 20)).
Proof.
  intros _ r. split.
  - unfold r, compute_matrix_order.
    pose proof (order_loop_spec M (Z.to_nat max_order) M 1 ltac:(lia)) as H.
    change (Z.to_nat 1) with 1%nat in H. rewrite mat_pow_1 in H.
    specialize (H eq_refl).
    assert (Hb : forall m, (0 < m < 1)%nat -> mat_pow M m <> identity) by lia.
    specialize (H Hb).
    destruct (order_loop M M 1 (Z.to_nat max_order)) as [n |].
    + right. destruct H as [Hn Hord]. split; [lia | assumption].
    + left. split; [reflexivity |]. intros m Hm. apply H. lia.
  - unfold compute_matrix_order, compute_order.
    change (Z.to_nat 20) with 20%nat.
    pose proof (order_loop_spec M 20 M 1 ltac:(lia)) as H.
    change (Z.to_nat 1) with 1%nat in H. rewrite mat_pow_1 in H.
    specialize (H eq_refl).
    assert (Hb : forall m, (0 < m < 1)%nat -> mat_pow M m <> identity) by lia.
    specialize (H Hb).
    destruct (order_loop M M 1 20) as [n |]; [| reflexivity].
    destruct H as [Hn _]. destruct (Z.eqb_spec n (-1)); [lia | reflexivity].
Qed.

Lemma compute_matrix_order_finds_the_order_witness :
  let r := compute_matrix_order cycle3 20 in
  ((r = -1 /\
    forall m, (0 < m <= Z.to_nat 20)%nat -> mat_pow cycle3 m <> identity) \/
   (1 <= r <= 20 /\ has_order cycle3 r)) /\
  compute_order cycle3
    = (if compute_matrix_order cycle3 20 =? -1 then None
       else Some (compute_matrix_order cycle3 20)).
Proof.
  apply (compute_matrix_order_finds_the_order cycle3 20). reflexivity.
Defined.

(** ** A cap at or below the seeds *)

(** X19. With no generator, or with a cap that the identity and the
    generators already meet, the loop of [generate_group] never runs: the
    call returns the identity and the generators as they are, multiplying
    nothing, however small (or negative) the cap is. *)
Theorem closure_without_a_pass (set_order : list Tuple9 -> list Tuple9)
    (generators : list Matrix3) (max_size : Z) :
  generators = [] \/ max_size <= len (group (initial generators)) ->
  generate_group set_order generators max_size
    = Some (group (initial generators)).
Proof.
  intros H. unfold generate_group, generate_group_run, closure_fuel.
  rewrite Nat.add_1_r. destruct H as [-> | Hcap].
  - reflexivity.
  - rewrite bfs_stops; [reflexivity |]. apply Z.ltb_ge. exact Hcap.
Qed.

Lemma closure_without_a_pass_witness :
  generate_group insertion_order [cycle3; cycle3_squared] 0
    = Some (group (initial [cycle3; cycle3_squared])).
Proof.
  apply (closure_without_a_pass insertion_order [cycle3; cycle3_squared] 0).
  right. vm_compute. discriminate.
Defined.

(** ** Determinants and traces in the 54-set *)

(** X20. [test_54_perfect_balance]: of the 54 matrices kept by
    [check_row_and_col], 27 have determinant 1 and 27 determinant 2 (mod 3),
    27 have trace 0 and 27 trace 1 (mod 3); none has trace 2. *)
Theorem doubly_stochastic_balance :
  len (filter (fun M => det_mod3 M =? 1) ops_54) = 27 /\
  len (filter (fun M => det_mod3 M =? 2) ops_54) = 27 /\
  len (filter (fun M => trace_mod3 M =? 0) ops_54) = 27 /\
  len (filter (fun M => trace_mod3 M =? 1) ops_54) = 27 /\
  len (filter (fun M => trace_mod3 M =? 2) ops_54) = 0.
Proof. vm_compute. repeat split. Qed.

(** ** A record that [int] rejects *)




